(** * Block ingestion saga of the drizzle store (blocksSaga.js)

    A shallow embedding of [src/app/drizzle/store/blocks/blocksSaga.js]:
    the two block producers ([createBlockChannel], [createBlockPollChannel]),
    the per-block relevance filter ([processBlock]) and the balance refresh
    ([updateAccountEth]), together with the routing table of [blocksSaga].

    Sagas are generators; every [yield] is recorded as an [Effect] in a
    trace, and an exception aborts the generator with [Throw].  Objects of
    the collaborators (web3, drizzle, the redux store) are records of the
    operations the saga calls on them. *)

From stdpp Require Import gmap strings list fin_maps.
From Stdlib Require Import Ascii String DecimalString.

Local Open Scope string_scope.
Local Open Scope list_scope.

Set Warnings "-clear-no-such-hyp".

(** ** JavaScript and lodash string helpers *)

Module Js.

(** [String.prototype.toLowerCase] on the ASCII range: A-Z go to a-z. *)
Definition lower_ascii (c : ascii) : ascii :=
  let n := N_of_ascii c in
  if ((65 <=? n) && (n <=? 90))%N then ascii_of_N (n + 32) else c.

Fixpoint toLowerCase (s : string) : string :=
  match s with
  | EmptyString => EmptyString
  | String c rest => String (lower_ascii c) (toLowerCase rest)
  end.

(** [s.replace(/0x/, '')]: the regular expression has no [g] flag and no
    anchor, so the leftmost occurrence of "0x" is removed, wherever it is. *)
Fixpoint replace_0x (s : string) : string :=
  match s with
  | EmptyString => EmptyString
  | String "0" (String "x" rest) => rest
  | String c rest => String c (replace_0x rest)
  end.

(** lodash [_.endsWith(string, target)] with the default position:
    [position = length - target.length; position >= 0 &&
     string.slice(position, length) == target]. *)
Definition endsWith (s target : string) : bool :=
  let length := String.length s in
  let tlen := String.length target in
  if (tlen <=? length)%nat
  then String.eqb (substring (length - tlen) tlen s) target
  else false.

(** A string is falsy exactly when it is empty; [undefined] and [null]
    are [None]. *)
Definition truthy (v : option string) : option string :=
  match v with
  | Some "" => None
  | Some s => Some s
  | None => None
  end.

(** [v || ''] *)
Definition or_empty (v : option string) : string :=
  match truthy v with Some s => s | None => "" end.

(** lodash [_.includes] on an array of strings (SameValueZero is string
    equality). *)
Fixpoint includes (l : list string) (v : string) : bool :=
  match l with
  | [] => false
  | x :: rest => if String.eqb x v then true else includes rest v
  end.

(** lodash [_.intersection(array, others)]: the loop of [baseIntersection]
    for two arrays.  A value of [array] is pushed on [result] when it is
    not yet in [result] and is included in [others]. *)
Fixpoint baseIntersection (array others result : list string) : list string :=
  match array with
  | [] => result
  | value :: rest =>
      if negb (includes result value) && includes others value
      then baseIntersection rest others (result ++ [value])
      else baseIntersection rest others result
  end.

Definition intersection (array others : list string) : list string :=
  baseIntersection array others [].

End Js.

(** ** Data model *)

(** Thrown values.  [TypeError] is what a property access on [undefined]
    raises; [Rejected] is a rejected promise or an exception of a
    collaborator. *)
Inductive Error :=
| TypeError (msg : string)
| Rejected (msg : string).

Inductive Result (A : Type) :=
| Ok (a : A)
| Throw (e : Error).
Arguments Ok {A} a.
Arguments Throw {A} e.

(** A contract handle of the registry; opaque to the saga. *)
Inductive Contract := ContractHandle (contractName : string).

Record Transaction := {
  tx_from : option string;
  tx_to : option string
}.

Record Block := {
  number : Z;
  (** [None]: the block object has no [transactions] property. *)
  transactions : option (list Transaction)
}.

Record BlockHeader := { header_number : Z }.

Record Log := {
  (** [None]: the log has no [topics] (resp. [address]) property. *)
  topics : option (list string);
  address : option string
}.

Record LogFilter := {
  fromBlock : Z;
  toBlock : Z;
  filter_topics : list string
}.

(** A subscription of the contracts store: the [addresses] array and the
    remaining properties, which the saga never inspects. *)
Record Subscription := {
  addresses : list string;
  otherFields : list (string * string)
}.

(** [newSubscription.addresses = matched] on a clone. *)
Definition set_addresses (s : Subscription) (matched : list string) : Subscription :=
  {| addresses := matched; otherFields := otherFields s |}.

Record Web3 := {
  eth_getBlock : Z -> bool -> Result Block;
  eth_getPastLogs : LogFilter -> Result (list Log);
  eth_getBalance : string -> Result string;
  utils_toChecksumAddress : string -> Result string
}.

Record Drizzle := {
  (** [drizzle.contracts], as the list of its own properties in the order
      [Object.keys] enumerates them. *)
  contracts : list (string * Contract);
  findContractByAddress : string -> Result (option Contract)
}.

(** The part of the redux state the selectors read. *)
Record Store := {
  selectAccount : option string;
  selectContractsSubscriptions : list Subscription
}.

(** Redux actions taken or put by the saga. *)
Inductive Action :=
| BLOCKS_LISTENING (drizzle : Drizzle) (web3 : Web3) (syncAlways : bool)
| BLOCKS_POLLING (drizzle : Drizzle) (interval : Z) (web3 : Web3) (syncAlways : bool)
| APP_READY (web3 : option Web3)
| BLOCKS_FAILED (error : Error)
| BLOCK_RECEIVED (blockHeader : BlockHeader) (drizzle : Drizzle) (web3 : Web3)
    (syncAlways : bool)
| BLOCK_FOUND (block : Block) (drizzle : Drizzle) (web3 : Web3) (syncAlways : bool)
| BLOCK_PROCESSING (block : Block)
| BLOCK_FAILED (error : Error)
| CONTRACT_SYNCING (contract : Contract)
| BATCH_CALL_REQUEST (request : list Subscription)
| ACCOUNT_BALANCES_FETCHING
| ETH_BALANCE_UPDATED (ethBalance : string).

(** ** The saga monad: a trace of yielded effects and a result *)

Inductive Effect :=
| Select_account
| Select_subscriptions
| Put (a : Action)
| Call_getBlock (blockNumber : Z) (full : bool)
| Await_getPastLogs (f : LogFilter)
| Await_getBalance (account : string)
| Call_createBlockChannel
| Call_createBlockPollChannel
| Take_blockChannel.

Definition Saga (A : Type) : Type := list Effect * Result A.

Module Saga.

Definition ret {A} (a : A) : Saga A := ([], Ok a).

Definition bind {A B} (m : Saga A) (k : A -> Saga B) : Saga B :=
  match m with
  | (t, Ok a) => let '(t', r) := k a in (t ++ t', r)
  | (t, Throw e) => (t, Throw e)
  end.

(** [try { body } catch (error) { handler }] *)
Definition try_catch {A} (body : Saga A) (handler : Error -> Saga A) : Saga A :=
  match body with
  | (t, Ok a) => (t, Ok a)
  | (t, Throw e) => let '(t', r) := handler e in (t ++ t', r)
  end.

(** [yield eff], answered by the middleware with [r]. *)
Definition yield {A} (eff : Effect) (r : Result A) : Saga A := ([eff], r).

Definition put (a : Action) : Saga unit := yield (Put a) (Ok tt).

(** A synchronous computation inside the generator body. *)
Definition sync {A} (r : Result A) : Saga A := ([], r).

(** [yield all(effects)] for an array of [put] effects. *)
Fixpoint all (effects : list Action) : Saga unit :=
  match effects with
  | [] => ret tt
  | a :: rest => bind (put a) (fun _ => all rest)
  end.

(** The actions a trace dispatched to the store. *)
Fixpoint emitted (t : list Effect) : list Action :=
  match t with
  | [] => []
  | Put a :: rest => a :: emitted rest
  | _ :: rest => emitted rest
  end.

End Saga.

Notation "'do' x <- m ; k" := (Saga.bind m (fun x => k))
  (at level 10, x name, m at level 100, k at level 200).

(** Exceptions of synchronous code. *)
Definition rbind {A B} (r : Result A) (k : A -> Result B) : Result B :=
  match r with
  | Ok a => k a
  | Throw e => Throw e
  end.

Notation "'try' x <- r ; k" := (rbind r (fun x => k))
  (at level 10, x name, r at level 100, k at level 200).

(** [_.each(collection, f)] where [f] updates a local object and may throw. *)
Fixpoint each {A S} (f : S -> A -> Result S) (l : list A) (s : S) : Result S :=
  match l with
  | [] => Ok s
  | x :: rest => try s' <- f s x; each f rest s'
  end.

(** ** Processing a block *)

Definition transferTopic : string :=
  "0xddf252ad1be2c89b69c2b068fc378daa952ba7f163c4a11628f55a4df523b3ef".

Definition watchedTopics : list string := [transferTopic].

(** [Object.keys] of the local object [contractsPendingSync].  The object is
    only ever used through the membership test of [_.intersection], so the
    order of the keys is immaterial. *)
Definition Object_keys (o : gmap string (option Contract)) : list string :=
  (map_to_list o).*1.

(** The test of [checkForTransactions] on the two indexed topics. *)
Definition transactionAffectsUser (account from to : string) : bool :=
  let fromMatch := Js.endsWith (Js.toLowerCase from) (Js.replace_0x account) in
  let toMatch := Js.endsWith (Js.toLowerCase to) (Js.replace_0x account) in
  fromMatch || toMatch.

Definition checkForTransactions (drizzle : Drizzle) (web3 : Web3) (account : string)
    (contractsPendingSync : gmap string (option Contract)) (log : Log)
    : Result (gmap string (option Contract)) :=
  match topics log with
  | None => Throw (TypeError "Cannot read property '1' of undefined")
  | Some topics =>
      match Js.truthy (topics !! 1%nat), Js.truthy (topics !! 2%nat) with
      | Some from, Some to =>
          if transactionAffectsUser account from to then
            match address log with
            | None => Throw (TypeError "Cannot read property 'toLowerCase' of undefined")
            | Some address =>
                try contract <- findContractByAddress drizzle (Js.toLowerCase address);
                try checksumAddress <- utils_toChecksumAddress web3 address;
                Ok (<[checksumAddress := contract]> contractsPendingSync)
            end
          else Ok contractsPendingSync
      | _, _ => Ok contractsPendingSync
      end
  end.

(** The body of the loop over [block.transactions]. *)
Definition checkTransaction (drizzle : Drizzle)
    (contractsPendingSync : gmap string (option Contract)) (tx : Transaction)
    : Result (gmap string (option Contract)) :=
  let from := Js.or_empty (tx_from tx) in
  try fromContract <- findContractByAddress drizzle (Js.toLowerCase from);
  let pending1 :=
    match fromContract with
    | Some c => <[from := Some c]> contractsPendingSync
    | None => contractsPendingSync
    end in
  let to := Js.or_empty (tx_to tx) in
  try toContract <- findContractByAddress drizzle (Js.toLowerCase to);
  Ok match toContract with
     | Some c => <[to := Some c]> pending1
     | None => pending1
     end.

(** Everything between the log query and [Object.keys(contractsPendingSync)]. *)
Definition collectPendingSync (drizzle : Drizzle) (web3 : Web3) (account : string)
    (block : Block) (logs : list Log) : Result (gmap string (option Contract)) :=
  try pending <- each (checkForTransactions drizzle web3 account) logs ∅;
  match transactions block with
  | None => Throw (TypeError "Cannot read property 'length' of undefined")
  | Some txs => each (checkTransaction drizzle) txs pending
  end.

Definition buildBatchCallRequest (contractAddressesPendingSync : list string)
    (request : list Subscription) (subscription : Subscription) : list Subscription :=
  let newSubscription := subscription in
  let subscriptionAddresses := addresses subscription in
  let matchedAddreses := Js.intersection subscriptionAddresses contractAddressesPendingSync in
  let foundMatchedAddresses := List.length matchedAddreses in
  if (0 <? foundMatchedAddresses)%nat
  then request ++ [set_addresses newSubscription matchedAddreses]
  else request.

Definition blockLogFilter (block : Block) : LogFilter :=
  {| fromBlock := number block; toBlock := number block; filter_topics := watchedTopics |}.

Definition processBlock (store : Store) (block : Block) (drizzle : Drizzle)
    (web3 : Web3) (syncAlways : bool) : Saga unit :=
  do account <- Saga.yield Select_account (Ok (selectAccount store));
  match Js.truthy account with
  | None => Saga.ret tt
  | Some account =>
      do subscriptions <-
        Saga.yield Select_subscriptions (Ok (selectContractsSubscriptions store));
      Saga.try_catch
        (do _ <- Saga.put (BLOCK_PROCESSING block);
         if syncAlways then
           Saga.all (map (fun entry => CONTRACT_SYNCING (snd entry)) (contracts drizzle))
         else
           do logs <- Saga.yield (Await_getPastLogs (blockLogFilter block))
                        (eth_getPastLogs web3 (blockLogFilter block));
           do contractsPendingSync <-
             Saga.sync (collectPendingSync drizzle web3 account block logs);
           let contractAddressesPendingSync := Object_keys contractsPendingSync in
           let request :=
             fold_left (buildBatchCallRequest contractAddressesPendingSync)
               subscriptions [] in
           Saga.put (BATCH_CALL_REQUEST request))
        (fun error => Saga.put (BLOCK_FAILED error))
  end.

Definition processBlockHeader (store : Store) (blockHeader : BlockHeader)
    (drizzle : Drizzle) (web3 : Web3) (syncAlways : bool) : Saga unit :=
  let blockNumber := header_number blockHeader in
  Saga.try_catch
    (do block <- Saga.yield (Call_getBlock blockNumber true)
                   (eth_getBlock web3 blockNumber true);
     processBlock store block drizzle web3 syncAlways)
    (fun error => Saga.put (BLOCK_FAILED error)).

(** ** Account balance *)

Definition updateAccountEth (store : Store) (web3 : option Web3) : Saga unit :=
  do _ <- Saga.put ACCOUNT_BALANCES_FETCHING;
  do account <- Saga.yield Select_account (Ok (selectAccount store));
  match Js.truthy account, web3 with
  | Some account, Some web3 =>
      do ethBalance <- Saga.yield (Await_getBalance account) (eth_getBalance web3 account);
      Saga.put (ETH_BALANCE_UPDATED ethBalance)
  | _, _ => Saga.ret tt
  end.

(** ** The root saga *)

Inductive Helper := takeLatest | takeEvery.

Inductive Pattern :=
| P_BLOCKS_LISTENING
| P_APP_READY
| P_BLOCK_RECEIVED
| P_BLOCKS_POLLING
| P_BLOCK_FOUND.

Inductive Worker :=
| W_callCreateBlockChannel
| W_updateAccountEth
| W_processBlockHeader
| W_callCreateBlockPollChannel
| W_processBlock.

(** The six watchers forked by [blocksSaga], in source order. *)
Definition blocksSaga : list (Helper * Pattern * Worker) :=
  [ (takeLatest, P_BLOCKS_LISTENING, W_callCreateBlockChannel);
    (takeEvery, P_APP_READY, W_updateAccountEth);
    (takeEvery, P_BLOCK_RECEIVED, W_processBlockHeader);
    (takeEvery, P_BLOCK_RECEIVED, W_updateAccountEth);
    (takeLatest, P_BLOCKS_POLLING, W_callCreateBlockPollChannel);
    (takeEvery, P_BLOCK_FOUND, W_processBlock) ].

(** A string pattern matches an action by its [type]. *)
Definition matches (p : Pattern) (a : Action) : bool :=
  match p, a with
  | P_BLOCKS_LISTENING, BLOCKS_LISTENING _ _ _ => true
  | P_APP_READY, APP_READY _ => true
  | P_BLOCK_RECEIVED, BLOCK_RECEIVED _ _ _ _ => true
  | P_BLOCKS_POLLING, BLOCKS_POLLING _ _ _ _ => true
  | P_BLOCK_FOUND, BLOCK_FOUND _ _ _ _ => true
  | _, _ => false
  end.

(** The workers started for an action, in watcher order. *)
Definition workers (a : Action) : list Worker :=
  map snd (List.filter (fun w => matches (snd (fst w)) a) blocksSaga).

(** ** Event channels *)

(** [eventChannel(subscribe)] of redux-saga: [emit(END)] closes the
    channel, a closed channel drops whatever is emitted, and closing calls
    the function returned by [subscribe] unless the channel is closed
    already.  [unsubscribe] works on the resource [R] of the producer and
    reports the error that escapes it, if any. *)
Module EventChannel.
Section Chan.

Variable R : Type.
Variable unsubscribe : R -> R * option Error.

Record t := {
  closed : bool;
  (** what the channel handed to its takers, oldest first *)
  emitted : list Action;
  resource : R
}.

Inductive Input := Msg (a : Action) | END.

Definition make (r : R) : t :=
  {| closed := false; emitted := []; resource := r |}.

Definition close (c : t) : t * option Error :=
  if closed c then (c, None)
  else
    let '(r, err) := unsubscribe (resource c) in
    ({| closed := true; emitted := emitted c; resource := r |}, err).

Definition emit (input : Input) (c : t) : t :=
  match input with
  | END => fst (close c)
  | Msg a =>
      if closed c then c
      else {| closed := false; emitted := emitted c ++ [a]; resource := resource c |}
  end.

End Chan.
End EventChannel.

Arguments EventChannel.closed {R} _.
Arguments EventChannel.emitted {R} _.
Arguments EventChannel.resource {R} _.
Arguments EventChannel.make {R} _.
Arguments EventChannel.close {R} _ _.
Arguments EventChannel.emit {R} _ _ _.

(** ** Listening for blocks *)

(** What the web3 subscription can do to the three handlers installed by
    [createBlockChannel], and the consumer closing the channel. *)
Inductive SubscriptionEvent :=
| Callback (error : option Error)
| Data (blockHeader : BlockHeader)
| ErrorEvent (error : Error)
| ConsumerClose.

(** [blockEvents.off()]; the resource counts the calls. *)
Definition blockEvents_off (offs : nat) : nat * option Error := (S offs, None).

Definition createBlockChannel : EventChannel.t nat := EventChannel.make 0%nat.

Definition blockChannel_step (drizzle : Drizzle) (web3 : Web3) (syncAlways : bool)
    (c : EventChannel.t nat) (ev : SubscriptionEvent) : EventChannel.t nat :=
  let emit := EventChannel.emit blockEvents_off in
  match ev with
  | Callback (Some error) =>
      emit EventChannel.END (emit (EventChannel.Msg (BLOCKS_FAILED error)) c)
  | Callback None => c
  | Data blockHeader =>
      emit (EventChannel.Msg (BLOCK_RECEIVED blockHeader drizzle web3 syncAlways)) c
  | ErrorEvent error =>
      emit EventChannel.END (emit (EventChannel.Msg (BLOCKS_FAILED error)) c)
  | ConsumerClose => fst (EventChannel.close blockEvents_off c)
  end.

Definition blockChannel_run (drizzle : Drizzle) (web3 : Web3) (syncAlways : bool)
    (evs : list SubscriptionEvent) : EventChannel.t nat :=
  fold_left (blockChannel_step drizzle web3 syncAlways) evs createBlockChannel.

(** The error carried by a subscription event, if it is one. *)
Definition subscription_error (ev : SubscriptionEvent) : option Error :=
  match ev with
  | Callback (Some error) => Some error
  | ErrorEvent error => Some error
  | _ => None
  end.

Definition is_BLOCKS_FAILED (a : Action) : bool :=
  match a with BLOCKS_FAILED _ => true | _ => false end.

Definition is_BLOCK_RECEIVED (a : Action) : bool :=
  match a with BLOCK_RECEIVED _ _ _ _ => true | _ => false end.

(** What an open or closed channel can have emitted: block headers, and
    after them at most one failure, which closes it. *)
Definition blockChannel_inv (c : EventChannel.t nat) : Prop :=
  ∃ pre, Forall (fun a => is_BLOCK_RECEIVED a = true) pre
         ∧ (EventChannel.emitted c = pre
            ∨ (EventChannel.closed c = true
               ∧ ∃ e, EventChannel.emitted c = pre ++ [BLOCKS_FAILED e])).

(** ** Polling for blocks *)

(** A promise, by the way it settles. *)
Definition Promise (A : Type) : Type := Result A.

(** [promise.catch(handler)] *)
Definition promise_catch {A} (p : Promise A) (handler : Error -> A) : Promise A :=
  match p with
  | Ok a => Ok a
  | Throw e => Ok (handler e)
  end.

(** A promise nobody awaits: its rejection, if any, is an unhandled one. *)
Definition unhandled {A} (p : Promise A) : option Error :=
  match p with
  | Ok _ => None
  | Throw e => Some e
  end.

Section PollChannel.

(** The block tracker of eth-block-tracker-es5: its states, and how
    [stop()] settles in each of them. *)
Variable BlockTracker : Type.
Variable tracker_stop : BlockTracker -> Promise unit * BlockTracker.

(** [blockTracker.stop().catch((_) => {})] *)
Definition pollChannel_unsubscribe (blockTracker : BlockTracker)
    : BlockTracker * option Error :=
  let '(stopped, blockTracker') := tracker_stop blockTracker in
  (blockTracker', unhandled (promise_catch stopped (fun _ => tt))).

Definition createBlockPollChannel (blockTracker : BlockTracker)
    : EventChannel.t BlockTracker :=
  EventChannel.make blockTracker.

(** The tracker found a block, [start()] was rejected, or the consumer
    closes the channel. *)
Inductive PollEvent :=
| TrackerBlock (block : Block)
| StartRejected (error : Error)
| PollClose.

Definition pollChannel_step (drizzle : Drizzle) (web3 : Web3) (syncAlways : bool)
    (c : EventChannel.t BlockTracker) (ev : PollEvent) : EventChannel.t BlockTracker :=
  let emit := EventChannel.emit pollChannel_unsubscribe in
  match ev with
  | TrackerBlock block =>
      emit (EventChannel.Msg (BLOCK_FOUND block drizzle web3 syncAlways)) c
  | StartRejected error =>
      emit EventChannel.END (emit (EventChannel.Msg (BLOCKS_FAILED error)) c)
  | PollClose => fst (EventChannel.close pollChannel_unsubscribe c)
  end.

End PollChannel.

(** Runs of the two producers over what their sources deliver. *)
Section PollChannelRun.

Variable BlockTracker : Type.
Variable tracker_stop : BlockTracker -> Promise unit * BlockTracker.

Definition pollChannel_run (drizzle : Drizzle) (web3 : Web3) (syncAlways : bool)
    (blockTracker : BlockTracker) (evs : list PollEvent) : EventChannel.t BlockTracker :=
  fold_left (pollChannel_step BlockTracker tracker_stop drizzle web3 syncAlways) evs
    (createBlockPollChannel BlockTracker blockTracker).

End PollChannelRun.

(** What a header channel emits for a subscription event while it is open
    and the event is neither an error nor a close. *)
Definition header_action (drizzle : Drizzle) (web3 : Web3) (syncAlways : bool)
    (ev : SubscriptionEvent) : option Action :=
  match ev with
  | Data blockHeader => Some (BLOCK_RECEIVED blockHeader drizzle web3 syncAlways)
  | _ => None
  end.

(** A subscription event that leaves an open channel open. *)
Definition keeps_open (ev : SubscriptionEvent) : bool :=
  match ev with
  | Callback None => true
  | Data _ => true
  | _ => false
  end.

Definition is_TrackerBlock (ev : PollEvent) : option Block :=
  match ev with
  | TrackerBlock block => Some block
  | _ => None
  end.

Definition is_BLOCK_FAILED (a : Action) : bool :=
  match a with BLOCK_FAILED _ => true | _ => false end.

(** The logs that pass the guards of [checkForTransactions]: topics
    present, both indexed topics truthy, and the suffix test. *)
Definition log_is_relevant (account : string) (log : Log) : bool :=
  match topics log with
  | Some ts =>
      match Js.truthy (ts !! 1%nat), Js.truthy (ts !! 2%nat) with
      | Some from, Some to => transactionAffectsUser account from to
      | _, _ => false
      end
  | None => false
  end.

(** The two addresses the transaction loop looks at. *)
Definition tx_endpoints (tx : Transaction) : list string :=
  [Js.or_empty (tx_from tx); Js.or_empty (tx_to tx)].

(** Recording a resolved contract under an address. *)
Definition record (key : string) (contract : option Contract)
    (pending : gmap string (option Contract)) : gmap string (option Contract) :=
  match contract with
  | Some c => <[key := Some c]> pending
  | None => pending
  end.

(** ** The workers of the root saga *)

(** The loop [while (true) { const event = yield take(blockChannel); yield
    put(event); }] over a channel that hands out [messages], oldest first.
    A provider calls its handlers from outside the steps of the saga, so
    every message finds the saga waiting in [take] and none is dropped; the
    last [take] is the one still pending, or the one that finds the channel
    closed and ends the saga. *)
Fixpoint forward (messages : list Action) : Saga unit :=
  match messages with
  | [] => Saga.yield Take_blockChannel (Ok tt)
  | event :: rest =>
      do _ <- Saga.yield Take_blockChannel (Ok tt);
      do _ <- Saga.put event;
      forward rest
  end.

(** [callCreateBlockChannel], while the subscription delivers [evs]. *)
Definition callCreateBlockChannel (drizzle : Drizzle) (web3 : Web3) (syncAlways : bool)
    (evs : list SubscriptionEvent) : Saga unit :=
  do _ <- Saga.yield Call_createBlockChannel (Ok tt);
  forward (EventChannel.emitted (blockChannel_run drizzle web3 syncAlways evs)).

Inductive Choice :=
| Dispatch
| Resume (n : nat).

(** A forked worker: the effects it has still to yield, and how it ends. *)
Record Task := {
  remaining : list Effect;
  outcome : Result unit
}.

Definition task_of (m : Saga unit) : Task :=
  {| remaining := fst m; outcome := snd m |}.

Definition is_takeEvery (h : Helper) : bool :=
  match h with takeEvery => true | takeLatest => false end.

(** The workers that the [takeEvery] watchers fork for an action. *)
Definition takeEvery_workers (a : Action) : list Worker :=
  map snd
    (List.filter (fun w => is_takeEvery (fst (fst w)) && matches (snd (fst w)) a)
       blocksSaga).

(** The effects of the task forked [n]-th, in a log of tagged effects. *)
Definition emitted_by (n : nat) (log : list (nat * Effect)) : list Effect :=
  map snd (List.filter (fun x => Nat.eqb (fst x) n) log).

Section RootSaga.

Variable BlockTracker : Type.
Variable tracker_stop : BlockTracker -> Promise unit * BlockTracker.

(** What the providers deliver to a producer during its life. *)
Record Sources := {
  subscription_events : list SubscriptionEvent;
  blockTracker : BlockTracker;
  tracker_events : list PollEvent
}.

(** [callCreateBlockPollChannel], while the tracker delivers [evs]. *)
Definition callCreateBlockPollChannel (drizzle : Drizzle) (interval : Z) (web3 : Web3)
    (syncAlways : bool) (tracker : BlockTracker) (evs : list PollEvent) : Saga unit :=
  do _ <- Saga.yield Call_createBlockPollChannel (Ok tt);
  forward
    (EventChannel.emitted
       (pollChannel_run BlockTracker tracker_stop drizzle web3 syncAlways tracker evs)).

(** The worker of a watcher applied to the action the watcher took.  Each
    worker destructures the action it is given; a watcher only hands its
    worker actions of the type it watches, so the last case never runs. *)
Definition run_worker (store : Store) (sources : Sources) (w : Worker) (a : Action)
    : Saga unit :=
  match w, a with
  | W_callCreateBlockChannel, BLOCKS_LISTENING drizzle web3 syncAlways =>
      callCreateBlockChannel drizzle web3 syncAlways (subscription_events sources)
  | W_updateAccountEth, APP_READY web3 => updateAccountEth store web3
  | W_processBlockHeader, BLOCK_RECEIVED blockHeader drizzle web3 syncAlways =>
      processBlockHeader store blockHeader drizzle web3 syncAlways
  | W_updateAccountEth, BLOCK_RECEIVED _ _ web3 _ => updateAccountEth store (Some web3)
  | W_callCreateBlockPollChannel, BLOCKS_POLLING drizzle interval web3 syncAlways =>
      callCreateBlockPollChannel drizzle interval web3 syncAlways
        (blockTracker sources) (tracker_events sources)
  | W_processBlock, BLOCK_FOUND block drizzle web3 syncAlways =>
      processBlock store block drizzle web3 syncAlways
  | _, _ => Saga.ret tt
  end.

(** An action reaching the watchers, whoever dispatched it (the
    application, or a producer forwarding a block event), with the store as
    each worker forked for it reads it (every worker reads the store at one
    instant) and what the providers deliver to a producer started by it. *)
Record Input := {
  input_action : Action;
  input_store : Worker -> Store;
  input_sources : Sources
}.

(** The tasks [takeEvery] forks for an input, in watcher order. *)
Definition fork (i : Input) : list Task :=
  map (fun w => task_of (run_worker (input_store i w) (input_sources i) w (input_action i)))
    (takeEvery_workers (input_action i)).

Definition forked_tasks (inputs : list Input) : list Task :=
  List.concat (map fork inputs).

(** The [takeEvery] watchers and the tasks they forked.  [takeEvery] does
    not wait for a worker: tasks run concurrently, each suspended between
    two of its effects.  [log] holds the effects performed so far, tagged
    with the number of the task; [aborted] holds the error of a task that
    ended with an uncaught error, which aborts the root saga and cancels
    every task.  What these workers put matches no watched pattern, so
    performing a [Put] forks nothing. *)
Record Pool := {
  pending : list Input;
  tasks : list Task;
  log : list (nat * Effect);
  aborted : option Error
}.

Definition root (inputs : list Input) : Pool :=
  {| pending := inputs; tasks := []; log := []; aborted := None |}.

(** One move of the scheduler: the next action is dispatched and its
    workers are forked, or task [n] is resumed and performs its next
    effect, or, having none left, delivers its uncaught error.  Nothing
    moves once the root saga is aborted. *)
Definition pool_step (c : Choice) (p : Pool) : option Pool :=
  match aborted p with
  | Some _ => None
  | None =>
      match c with
      | Dispatch =>
          match pending p with
          | [] => None
          | i :: rest =>
              Some {| pending := rest; tasks := tasks p ++ fork i;
                      log := log p; aborted := None |}
          end
      | Resume n =>
          match tasks p !! n with
          | None => None
          | Some t =>
              match remaining t, outcome t with
              | eff :: effs, _ =>
                  Some {| pending := pending p;
                          tasks := <[n := {| remaining := effs; outcome := outcome t |}]>
                                     (tasks p);
                          log := log p ++ [(n, eff)];
                          aborted := None |}
              | [], Throw e =>
                  Some {| pending := pending p; tasks := tasks p;
                          log := log p; aborted := Some e |}
              | [], Ok _ => None
              end
          end
      end
  end.

Fixpoint run_schedule (schedule : list Choice) (p : Pool) : option Pool :=
  match schedule with
  | [] => Some p
  | c :: rest =>
      match pool_step c p with
      | Some p' => run_schedule rest p'
      | None => None
      end
  end.

(** Every action was dispatched and every task ran to its end without an
    uncaught error. *)
Definition settled (p : Pool) : bool :=
  match pending p, aborted p with
  | [], None =>
      forallb (fun t => match remaining t, outcome t with
                        | [], Ok _ => true
                        | _, _ => false
                        end) (tasks p)
  | _, _ => false
  end.

End RootSaga.

Arguments subscription_events {BlockTracker} _.
Arguments blockTracker {BlockTracker} _.
Arguments tracker_events {BlockTracker} _.
Arguments input_action {BlockTracker} _.
Arguments input_store {BlockTracker} _ _.
Arguments input_sources {BlockTracker} _.
Arguments pending {BlockTracker} _.
Arguments tasks {BlockTracker} _.
Arguments log {BlockTracker} _.
Arguments aborted {BlockTracker} _.
Arguments root {BlockTracker} _.
Arguments settled {BlockTracker} _.

(** What holds of the pool after any moves from [root inputs]: the first
    [k] inputs were dispatched, task [n] is the [n]-th task forked for
    them, and what it performed so far followed by what it has still to
    yield is the trace of its worker; an abort carries the error of one of
    these tasks. *)
Definition pool_inv (BlockTracker : Type)
    (tracker_stop : BlockTracker -> Promise unit * BlockTracker)
    (inputs : list (Input BlockTracker)) (p : Pool BlockTracker) : Prop :=
  ∃ k,
    pending p = drop k inputs
    ∧ List.length (tasks p)
      = List.length (forked_tasks BlockTracker tracker_stop (take k inputs))
    ∧ (∀ n full,
         forked_tasks BlockTracker tracker_stop (take k inputs) !! n = Some full →
         ∃ t, tasks p !! n = Some t ∧ outcome t = outcome full
              ∧ emitted_by n (log p) ++ remaining t = remaining full)
    ∧ (∀ n, (List.length (tasks p) ≤ n)%nat → emitted_by n (log p) = [])
    ∧ (∀ e, aborted p = Some e →
            ∃ n full,
              forked_tasks BlockTracker tracker_stop (take k inputs) !! n = Some full
              ∧ outcome full = Throw e).

(** ** Contract data for display (utils/drizzle.js) *)

(** The values found in the contract state of the store. *)
#[warnings="-register-all"]
Inductive JsValue :=
| JsUndefined
| JsNull
| JsBool (b : bool)
| JsNumber (n : Z)
| JsString (s : string)
| JsArray (items : list JsValue)
(** the own enumerable properties, in the order [Object.keys] lists them *)
| JsObject (props : list (string * JsValue)).

Module Lodash.

(** The decimal spelling of an array index. *)
Definition index_key (i : nat) : string := NilZero.string_of_uint (Nat.to_uint i).

Definition index_keys (n : nat) : list string := map index_key (seq 0 n).

(** [_.keys(value)]: the indices of a string or an array, the own
    enumerable property names of an object, nothing for the rest. *)
Definition keys (value : JsValue) : list string :=
  match value with
  | JsString s => index_keys (String.length s)
  | JsArray items => index_keys (List.length items)
  | JsObject props => map fst props
  | _ => []
  end.

(** The first entry of an association list under a key. *)
Fixpoint assoc (key : string) (props : list (string * JsValue)) : option JsValue :=
  match props with
  | [] => None
  | (k, v) :: rest => if String.eqb k key then Some v else assoc key rest
  end.

(** The index a key spells, among the first [n]. *)
Definition index_of_key (key : string) (n : nat) : option nat :=
  List.find (fun i => String.eqb (index_key i) key) (seq 0 n).

(** [value[key]] for a key that [_.keys(value)] can return. *)
Definition prop (value : JsValue) (key : string) : JsValue :=
  match value with
  | JsString s =>
      match index_of_key key (String.length s) with
      | Some i => JsString (substring i 1 s)
      | None => JsUndefined
      end
  | JsArray items =>
      match index_of_key key (List.length items) with
      | Some i => nth i items JsUndefined
      | None => JsUndefined
      end
  | JsObject props =>
      match assoc key props with
      | Some v => v
      | None => JsUndefined
      end
  | _ => JsUndefined
  end.

(** [_.get(object, 'value', defaultValue)]: only an object can have a
    [value] property; [undefined] gives the default. *)
Definition get_value (object defaultValue : JsValue) : JsValue :=
  match object with
  | JsObject props =>
      match assoc "value" props with
      | Some JsUndefined => defaultValue
      | Some v => v
      | None => defaultValue
      end
  | _ => defaultValue
  end.

End Lodash.

(** The iteratee of [transformContractData]. *)
Definition getContractData (acc : gmap string JsValue) (val : JsValue) (key : string)
    : gmap string JsValue :=
  let valKeys := Lodash.keys val in
  if (0 <? List.length valKeys)%nat
     && negb (String.eqb key "address")
     && negb (String.eqb key "contractType")
     && negb (String.eqb key "metadata")
  then
    let newVal := Lodash.prop val (hd "" valKeys) in
    <[key := Lodash.get_value newVal (JsString "")]> acc
  else acc.

(** [_.reduce(contractData, getContractData, {})] over the properties of
    the object [contractData]. *)
Definition transformContractData (contractData : list (string * JsValue))
    : gmap string JsValue :=
  fold_left (fun acc entry => getContractData acc (snd entry) (fst entry)) contractData ∅.

(** ** Concrete collaborators used to exercise the definitions *)

Module Fixtures.

(** One address in its two spellings (an EIP-55 test vector). *)
Definition lowerAddress : string := "0x5aaeb6053f3e94c9b9a09f33669435e7ef1beaed".
Definition checksumAddress : string := "0x5aAeb6053F3E94C9b9A09f33669435E7Ef1BeAed".

(** The address as an indexed topic: left-padded to 32 bytes. *)
Definition paddedTopic : string :=
  "0x0000000000000000000000005aaeb6053f3e94c9b9a09f33669435e7ef1beaed".
Definition otherTopic : string :=
  "0x000000000000000000000000fb6916095ca1df60bb79ce92ce3ea74c37c5d359".

Definition vault : Contract := ContractHandle "vault".
Definition token : Contract := ContractHandle "token".

(** A registry that knows [vault] under [lowerAddress]. *)
Definition drizzle : Drizzle := {|
  contracts := [("vault", vault); ("token", token)];
  findContractByAddress := fun a =>
    Ok (if String.eqb a lowerAddress then Some vault else None)
|}.

(** A provider answering the log query with [logs]. *)
Definition web3 (logs : Result (list Log)) : Web3 := {|
  eth_getBlock := fun n _ => Ok {| number := n; transactions := Some [] |};
  eth_getPastLogs := fun _ => logs;
  eth_getBalance := fun _ => Ok "1000000000000000000";
  utils_toChecksumAddress := fun a =>
    if String.eqb (Js.toLowerCase a) lowerAddress then Ok checksumAddress
    else Throw (Rejected "Given address is not a valid Ethereum address.")
|}.

Definition subscription (addrs : list string) : Subscription :=
  {| addresses := addrs; otherFields := [("namespace", "vaults")] |}.

Definition store (account : option string) (subs : list Subscription) : Store :=
  {| selectAccount := account; selectContractsSubscriptions := subs |}.

Definition emptyBlock : Block := {| number := 7; transactions := Some [] |}.

(** A block with one transaction sent from [lowerAddress]. *)
Definition txBlock : Block :=
  {| number := 8;
     transactions := Some [ {| tx_from := Some lowerAddress; tx_to := None |} ] |}.

(** A transfer log of the contract at [lowerAddress] whose sender is the
    account at [lowerAddress]. *)
Definition transferLog : Log :=
  {| topics := Some [transferTopic; paddedTopic; otherTopic];
     address := Some lowerAddress |}.

(** A tracker whose [stop()] is rejected unless it is running. *)
Inductive TrackerState := NeverStarted | Running | Stopped.

Definition strict_stop (t : TrackerState) : Promise unit * TrackerState :=
  match t with
  | Running => (Ok tt, Stopped)
  | _ => (Throw (Rejected "no outstanding subscription"), t)
  end.

End Fixtures.

Module MoreFixtures.

(** A provider whose balance query is rejected. *)
Definition deafWeb3 : Web3 := {|
  eth_getBlock := fun _ _ => Throw (Rejected "provider down");
  eth_getPastLogs := fun _ => Throw (Rejected "provider down");
  eth_getBalance := fun _ => Throw (Rejected "provider down");
  utils_toChecksumAddress := fun a => Ok a
|}.

(** The state of one contract in the store: bookkeeping fields and one
    cached call per method. *)
Definition contractData : list (string * JsValue) :=
  [ ("initialized", JsBool true);
    ("synced", JsBool true);
    ("events", JsArray []);
    ("address", JsString Fixtures.checksumAddress);
    ("contractType", JsString "vaults");
    ("metadata", JsObject [("version", JsObject [("value", JsString "1")])]);
    ("balance",
       JsObject [("0x0", JsObject [("args", JsArray []); ("value", JsString "42")])]);
    ("symbol", JsObject [("0x0", JsObject [("args", JsArray []); ("error", JsString "reverted")])]);
    ("name", JsString "yVault") ].

(** A [BLOCK_FOUND] action as the poll producer puts it. *)
Definition blockFound (web3 : Web3) (block : Block) : Input Fixtures.TrackerState :=
  {| input_action := BLOCK_FOUND block Fixtures.drizzle web3 false;
     input_store := fun _ =>
       Fixtures.store (Some Fixtures.lowerAddress)
         [Fixtures.subscription [Fixtures.lowerAddress]];
     input_sources := {| subscription_events := [];
                         blockTracker := Fixtures.Running;
                         tracker_events := [] |} |}.

(** A [BLOCK_RECEIVED] action as the subscription producer puts it. *)
Definition headerReceived (web3 : Web3) : Input Fixtures.TrackerState :=
  {| input_action := BLOCK_RECEIVED {| header_number := 7 |} Fixtures.drizzle web3 false;
     input_store := fun _ => Fixtures.store (Some Fixtures.lowerAddress) [];
     input_sources := {| subscription_events := [];
                         blockTracker := Fixtures.Running;
                         tracker_events := [] |} |}.

(** [APP_READY] with a provider. *)
Definition appReady (web3 : Web3) : Input Fixtures.TrackerState :=
  {| input_action := APP_READY (Some web3);
     input_store := fun _ => Fixtures.store (Some Fixtures.lowerAddress) [];
     input_sources := {| subscription_events := [];
                         blockTracker := Fixtures.Running;
                         tracker_events := [] |} |}.

(** Two blocks handled concurrently: the second is dispatched while the
    first waits for its log query, and the first fails after the second
    has started. *)
Definition interleaved : list Choice :=
  [Dispatch; Resume 0; Resume 0; Resume 0; Resume 0;
   Dispatch; Resume 1; Resume 1; Resume 1; Resume 1;
   Resume 0; Resume 1]%nat.

(** A transfer between two other accounts by a contract the registry does
    not know, and a transaction between unregistered addresses. *)
Definition quietLog : Log :=
  {| topics := Some [transferTopic; Fixtures.otherTopic; Fixtures.otherTopic];
     address := Some "0xfb6916095ca1df60bb79ce92ce3ea74c37c5d359" |}.

Definition quietBlock : Block :=
  {| number := 9;
     transactions :=
       Some [ {| tx_from := Some "0xfb6916095ca1df60bb79ce92ce3ea74c37c5d359";
                 tx_to := None |} ] |}.

Definition twoBlocks : list (Input Fixtures.TrackerState) :=
  [blockFound (Fixtures.web3 (Throw (Rejected "provider down"))) Fixtures.emptyBlock;
   blockFound (Fixtures.web3 (Ok [])) Fixtures.txBlock].

Definition afterTwoBlocks : Pool Fixtures.TrackerState :=
  default (root [])
    (run_schedule _ Fixtures.strict_stop interleaved (root twoBlocks)).

(** A header whose two workers take turns. *)
Definition headerSchedule : list Choice :=
  [Dispatch; Resume 1; Resume 0; Resume 1; Resume 0; Resume 0;
   Resume 1; Resume 1; Resume 0; Resume 0; Resume 0]%nat.

Definition afterHeader : Pool Fixtures.TrackerState :=
  default (root [])
    (run_schedule _ Fixtures.strict_stop headerSchedule
       (root [headerReceived (Fixtures.web3 (Ok []))])).

(** A balance query that is rejected after a block was dispatched and has
    started. *)
Definition balanceThenBlock : list (Input Fixtures.TrackerState) :=
  [appReady deafWeb3; blockFound (Fixtures.web3 (Ok [])) Fixtures.emptyBlock].

Definition abortingSchedule : list Choice :=
  [Dispatch; Resume 0; Resume 0; Dispatch; Resume 1; Resume 0;
   Resume 1; Resume 1; Resume 0]%nat.

Definition afterAbort : Pool Fixtures.TrackerState :=
  default (root [])
    (run_schedule _ Fixtures.strict_stop abortingSchedule (root balanceThenBlock)).

End MoreFixtures.

(** * Properties *)

(** ** The saga monad *)

Lemma all_trace (effects : list Action) :
  Saga.all effects = (map Put effects, Ok tt).
Proof.
  induction effects as [|a rest IH]; [reflexivity|].
  cbn [Saga.all]. rewrite IH. reflexivity.
Qed.

Lemma emitted_app (t1 t2 : list Effect) :
  Saga.emitted (t1 ++ t2) = Saga.emitted t1 ++ Saga.emitted t2.
Proof.
  induction t1 as [|e t1 IH]; [reflexivity|].
  destruct e; cbn; rewrite IH; reflexivity.
Qed.

Lemma emitted_puts (l : list Action) : Saga.emitted (map Put l) = l.
Proof. induction l as [|a l IH]; cbn; [|rewrite IH]; reflexivity. Qed.

(** ** lodash helpers *)

Lemma includes_elem_of (l : list string) (v : string) :
  Js.includes l v = true ↔ v ∈ l.
Proof.
  induction l as [|x l IH]; cbn.
  - split; [discriminate | intros H; inversion H].
  - destruct (String.eqb_spec x v) as [->|Hne].
    + split; [intros _; left | reflexivity].
    + rewrite IH. split; [by right|].
      intros H. apply elem_of_cons in H as [->|H]; [done | exact H].
Qed.

Lemma baseIntersection_elem_of (array others result : list string) (x : string) :
  x ∈ Js.baseIntersection array others result ↔
  x ∈ result ∨ (x ∈ array ∧ x ∈ others).
Proof.
  revert result. induction array as [|v rest IH]; intros result; cbn.
  - split; [by left | intros [H|[H _]]; [exact H | inversion H]].
  - destruct (Js.includes result v) eqn:Hres; cbn.
    + apply includes_elem_of in Hres. rewrite IH. set_solver.
    + destruct (Js.includes others v) eqn:Hoth.
      * apply includes_elem_of in Hoth. rewrite IH. set_solver.
      * assert (v ∉ others) as Hn.
        { intros H. apply includes_elem_of in H. congruence. }
        rewrite IH. set_solver.
Qed.

Lemma baseIntersection_NoDup (array others result : list string) :
  NoDup result → NoDup (Js.baseIntersection array others result).
Proof.
  revert result. induction array as [|v rest IH]; intros result Hnd; cbn; [done|].
  destruct (Js.includes result v) eqn:Hres; cbn; [by apply IH|].
  destruct (Js.includes others v); [|by apply IH].
  apply IH, NoDup_app. split_and!; [done | | apply NoDup_singleton].
  intros x Hx Hv. apply list_elem_of_singleton in Hv as ->.
  apply includes_elem_of in Hx. congruence.
Qed.

Lemma baseIntersection_sublist (array others result : list string) :
  ∃ l, Js.baseIntersection array others result = result ++ l ∧ sublist l array.
Proof.
  revert result. induction array as [|v rest IH]; intros result; cbn.
  - exists []. by rewrite app_nil_r.
  - destruct (negb (Js.includes result v) && Js.includes others v).
    + destruct (IH (result ++ [v])) as (l & -> & Hl).
      exists (v :: l). rewrite <- app_assoc. split; [done | by constructor].
    + destruct (IH result) as (l & -> & Hl).
      exists l. split; [done | by constructor].
Qed.

(** [_.intersection] keeps, in the order of its first argument and once
    each, the values of the first argument that occur in the second. *)
Lemma intersection_spec (array others : list string) :
  (∀ x, x ∈ Js.intersection array others ↔ x ∈ array ∧ x ∈ others)
  ∧ NoDup (Js.intersection array others)
  ∧ sublist (Js.intersection array others) array.
Proof.
  unfold Js.intersection. split_and!.
  - intros x. rewrite baseIntersection_elem_of. set_solver.
  - apply baseIntersection_NoDup, NoDup_nil_2.
  - destruct (baseIntersection_sublist array others []) as (l & -> & Hl).
    exact Hl.
Qed.

Lemma Object_keys_elem_of (o : gmap string (option Contract)) (k : string) :
  k ∈ Object_keys o ↔ is_Some (o !! k).
Proof.
  unfold Object_keys. rewrite list_elem_of_fmap. split.
  - intros ([k' v] & -> & Hin). apply elem_of_map_to_list in Hin. by exists v.
  - intros [v Hv]. exists (k, v). split; [done | by apply elem_of_map_to_list].
Qed.

(** The loop over the subscriptions is a filter followed by a map. *)
Lemma buildBatchCallRequest_fold (keys : list string) (subs request : list Subscription) :
  fold_left (buildBatchCallRequest keys) subs request =
  request ++
    map (fun s => set_addresses s (Js.intersection (addresses s) keys))
      (filter (fun s => Js.intersection (addresses s) keys ≠ []) subs).
Proof.
  revert request. induction subs as [|s subs IH]; intros request; cbn [fold_left].
  - by rewrite app_nil_r.
  - rewrite IH. unfold buildBatchCallRequest. rewrite filter_cons.
    destruct (decide (Js.intersection (addresses s) keys ≠ [])) as [Hne|He].
    + destruct (Js.intersection (addresses s) keys) as [|a m] eqn:Hm; [done|].
      cbn. rewrite Hm, <- app_assoc. reflexivity.
    + destruct (Js.intersection (addresses s) keys) as [|a m] eqn:Hm;
        [reflexivity | exfalso; apply He; discriminate].
Qed.

(** ** Traces of [processBlock] *)

Section ProcessBlockTraces.

Variables (store : Store) (block : Block) (drizzle : Drizzle) (web3 : Web3).

Lemma processBlock_falsy_account (syncAlways : bool) :
  Js.truthy (selectAccount store) = None →
  processBlock store block drizzle web3 syncAlways = ([Select_account], Ok tt).
Proof.
  intros Hacc. unfold processBlock, Saga.bind, Saga.yield.
  rewrite Hacc. reflexivity.
Qed.

Lemma trace_of_syncAlways (account : string) :
  Js.truthy (selectAccount store) = Some account →
  processBlock store block drizzle web3 true =
    ([Select_account; Select_subscriptions; Put (BLOCK_PROCESSING block)]
       ++ map (fun entry => Put (CONTRACT_SYNCING (snd entry))) (contracts drizzle),
     Ok tt).
Proof.
  intros Hacc. unfold processBlock, Saga.bind, Saga.yield, Saga.try_catch, Saga.put.
  rewrite Hacc, all_trace, map_map. reflexivity.
Qed.

Lemma processBlock_query_failed (account : string) (e : Error) :
  Js.truthy (selectAccount store) = Some account →
  eth_getPastLogs web3 (blockLogFilter block) = Throw e →
  processBlock store block drizzle web3 false =
    ([Select_account; Select_subscriptions; Put (BLOCK_PROCESSING block);
      Await_getPastLogs (blockLogFilter block); Put (BLOCK_FAILED e)], Ok tt).
Proof.
  intros Hacc Hlogs.
  unfold processBlock, Saga.bind, Saga.yield, Saga.try_catch, Saga.put, Saga.sync.
  rewrite Hacc, Hlogs. reflexivity.
Qed.

Lemma processBlock_collect_failed (account : string) (logs : list Log) (e : Error) :
  Js.truthy (selectAccount store) = Some account →
  eth_getPastLogs web3 (blockLogFilter block) = Ok logs →
  collectPendingSync drizzle web3 account block logs = Throw e →
  processBlock store block drizzle web3 false =
    ([Select_account; Select_subscriptions; Put (BLOCK_PROCESSING block);
      Await_getPastLogs (blockLogFilter block); Put (BLOCK_FAILED e)], Ok tt).
Proof.
  intros Hacc Hlogs Hcollect.
  unfold processBlock, Saga.bind, Saga.yield, Saga.try_catch, Saga.put, Saga.sync.
  rewrite Hacc, Hlogs, Hcollect. reflexivity.
Qed.

Lemma processBlock_request_trace (account : string) (logs : list Log)
    (pending : gmap string (option Contract)) :
  Js.truthy (selectAccount store) = Some account →
  eth_getPastLogs web3 (blockLogFilter block) = Ok logs →
  collectPendingSync drizzle web3 account block logs = Ok pending →
  processBlock store block drizzle web3 false =
    ([Select_account; Select_subscriptions; Put (BLOCK_PROCESSING block);
      Await_getPastLogs (blockLogFilter block);
      Put (BATCH_CALL_REQUEST
             (fold_left (buildBatchCallRequest (Object_keys pending))
                (selectContractsSubscriptions store) []))], Ok tt).
Proof.
  intros Hacc Hlogs Hcollect.
  unfold processBlock, Saga.bind, Saga.yield, Saga.try_catch, Saga.put, Saga.sync.
  rewrite Hacc, Hlogs, Hcollect. reflexivity.
Qed.

(** Whatever the collaborators do, [processBlock] returns normally and
    its trace has one of four shapes. *)
Lemma processBlock_shapes (syncAlways : bool) :
  snd (processBlock store block drizzle web3 syncAlways) = Ok tt ∧
  let puts := Saga.emitted (fst (processBlock store block drizzle web3 syncAlways)) in
  puts = []
  ∨ puts = BLOCK_PROCESSING block
             :: map (fun entry => CONTRACT_SYNCING (snd entry)) (contracts drizzle)
  ∨ (∃ request, puts = [BLOCK_PROCESSING block; BATCH_CALL_REQUEST request])
  ∨ (∃ e, puts = [BLOCK_PROCESSING block; BLOCK_FAILED e]).
Proof.
  destruct (Js.truthy (selectAccount store)) as [account|] eqn:Hacc.
  - destruct syncAlways.
    + rewrite (trace_of_syncAlways account Hacc). split; [done|].
      right; left. cbn. f_equal.
      rewrite <- (emitted_puts (map _ (contracts drizzle))), map_map. reflexivity.
    + destruct (eth_getPastLogs web3 (blockLogFilter block)) as [logs|e] eqn:Hlogs.
      * destruct (collectPendingSync drizzle web3 account block logs)
          as [pending|e] eqn:Hcollect.
        -- rewrite (processBlock_request_trace account logs pending Hacc Hlogs Hcollect).
           split; [done|]. right; right; left. eexists. reflexivity.
        -- rewrite (processBlock_collect_failed account logs e Hacc Hlogs Hcollect).
           split; [done|]. right; right; right. eexists. reflexivity.
      * rewrite (processBlock_query_failed account e Hacc Hlogs).
        split; [done|]. right; right; right. eexists. reflexivity.
  - rewrite (processBlock_falsy_account syncAlways Hacc). split; [done|]. by left.
Qed.

End ProcessBlockTraces.

(** ** The batch request *)

(** C1: with an account set and [syncAlways] false, when the log query and
    the scan of logs and transactions succeed with the pending-sync object
    [pending], the block emits [BLOCK_PROCESSING] and then one
    [BATCH_CALL_REQUEST] whose payload is, in subscription order, a copy of
    exactly those subscriptions whose addresses meet the keys of [pending];
    the copy carries that intersection as its [addresses] and the other
    fields unchanged.  The intersection holds the subscription's addresses
    that are keys of [pending], once each, in the subscription's order. *)
Theorem processBlock_request_is_intersection
    (store : Store) (block : Block) (drizzle : Drizzle) (web3 : Web3)
    (account : string) (logs : list Log) (pending : gmap string (option Contract)) :
  Js.truthy (selectAccount store) = Some account →
  eth_getPastLogs web3 (blockLogFilter block) = Ok logs →
  collectPendingSync drizzle web3 account block logs = Ok pending →
  let matched := fun s => Js.intersection (addresses s) (Object_keys pending) in
  Saga.emitted (fst (processBlock store block drizzle web3 false)) =
    [BLOCK_PROCESSING block;
     BATCH_CALL_REQUEST
       (map (fun s => set_addresses s (matched s))
          (filter (fun s => matched s ≠ []) (selectContractsSubscriptions store)))]
  ∧ (∀ s a, a ∈ matched s ↔ a ∈ addresses s ∧ is_Some (pending !! a))
  ∧ (∀ s, NoDup (matched s) ∧ sublist (matched s) (addresses s))
  ∧ (∀ s, addresses (set_addresses s (matched s)) = matched s
          ∧ otherFields (set_addresses s (matched s)) = otherFields s).
Proof.
  intros Hacc Hlogs Hcollect matched. split_and!.
  - rewrite (processBlock_request_trace _ _ _ _ account logs pending Hacc Hlogs Hcollect).
    cbn. rewrite buildBatchCallRequest_fold. reflexivity.
  - intros s a. unfold matched.
    destruct (intersection_spec (addresses s) (Object_keys pending)) as (Hin & _ & _).
    rewrite Hin, Object_keys_elem_of. reflexivity.
  - intros s. unfold matched.
    destruct (intersection_spec (addresses s) (Object_keys pending)) as (_ & Hnd & Hsub).
    by split.
  - intros s. by split.
Qed.

Lemma processBlock_request_is_intersection_witness :
  Saga.emitted
    (fst (processBlock
            (Fixtures.store (Some Fixtures.lowerAddress)
               [Fixtures.subscription [Fixtures.checksumAddress; Fixtures.lowerAddress];
                Fixtures.subscription [Fixtures.checksumAddress];
                Fixtures.subscription [Fixtures.lowerAddress; Fixtures.lowerAddress]])
            Fixtures.txBlock Fixtures.drizzle (Fixtures.web3 (Ok [])) false)) =
    [BLOCK_PROCESSING Fixtures.txBlock;
     BATCH_CALL_REQUEST
       [Fixtures.subscription [Fixtures.lowerAddress];
        Fixtures.subscription [Fixtures.lowerAddress]]].
Proof.
  destruct (processBlock_request_is_intersection
              (Fixtures.store (Some Fixtures.lowerAddress)
                 [Fixtures.subscription [Fixtures.checksumAddress; Fixtures.lowerAddress];
                  Fixtures.subscription [Fixtures.checksumAddress];
                  Fixtures.subscription [Fixtures.lowerAddress; Fixtures.lowerAddress]])
              Fixtures.txBlock Fixtures.drizzle (Fixtures.web3 (Ok []))
              Fixtures.lowerAddress []
              (<[Fixtures.lowerAddress := Some Fixtures.vault]> ∅)) as [H _].
  - reflexivity.
  - reflexivity.
  - vm_compute. reflexivity.
  - rewrite H. vm_compute. reflexivity.
Defined.

(** C10: with an account set and [syncAlways] false, a block whose log query
    and scan succeed always emits a [BATCH_CALL_REQUEST] after
    [BLOCK_PROCESSING]; when no subscription meets the pending-sync keys
    the payload is the empty array, the event is not suppressed. *)
Theorem processBlock_emits_empty_request
    (store : Store) (block : Block) (drizzle : Drizzle) (web3 : Web3)
    (account : string) (logs : list Log) (pending : gmap string (option Contract)) :
  Js.truthy (selectAccount store) = Some account →
  eth_getPastLogs web3 (blockLogFilter block) = Ok logs →
  collectPendingSync drizzle web3 account block logs = Ok pending →
  (∃ request,
     Saga.emitted (fst (processBlock store block drizzle web3 false)) =
       [BLOCK_PROCESSING block; BATCH_CALL_REQUEST request])
  ∧ ((∀ s, s ∈ selectContractsSubscriptions store →
           Js.intersection (addresses s) (Object_keys pending) = []) →
     Saga.emitted (fst (processBlock store block drizzle web3 false)) =
       [BLOCK_PROCESSING block; BATCH_CALL_REQUEST []]).
Proof.
  intros Hacc Hlogs Hcollect.
  rewrite (processBlock_request_trace _ _ _ _ account logs pending Hacc Hlogs Hcollect).
  cbn. split; [eexists; reflexivity|].
  intros Hnone. rewrite buildBatchCallRequest_fold. cbn.
  do 3 f_equal.
  induction (selectContractsSubscriptions store) as [|s subs IH]; [reflexivity|].
  rewrite filter_cons. destruct (decide _) as [Hne|_].
  - exfalso. apply Hne, Hnone. by left.
  - apply IH. intros s' Hs'. apply Hnone. by right.
Qed.

Lemma processBlock_emits_empty_request_witness :
  Saga.emitted
    (fst (processBlock
            (Fixtures.store (Some Fixtures.lowerAddress)
               [Fixtures.subscription [Fixtures.checksumAddress]])
            Fixtures.emptyBlock Fixtures.drizzle (Fixtures.web3 (Ok [])) false)) =
    [BLOCK_PROCESSING Fixtures.emptyBlock; BATCH_CALL_REQUEST []].
Proof.
  destruct (processBlock_emits_empty_request
              (Fixtures.store (Some Fixtures.lowerAddress)
                 [Fixtures.subscription [Fixtures.checksumAddress]])
              Fixtures.emptyBlock Fixtures.drizzle (Fixtures.web3 (Ok []))
              Fixtures.lowerAddress [] ∅) as [_ H].
  - reflexivity.
  - reflexivity.
  - reflexivity.
  - apply H. intros s Hs. apply list_elem_of_singleton in Hs as ->. reflexivity.
Defined.

(** ** Short circuits *)

(** C4: with an account set and [syncAlways] true the saga yields the two
    selects, puts [BLOCK_PROCESSING] and then one [CONTRACT_SYNCING] per
    entry of [drizzle.contracts] in key order, and nothing else: no log
    query, no [BATCH_CALL_REQUEST], whatever the block contains. *)
Theorem processBlock_syncAlways
    (store : Store) (block : Block) (drizzle : Drizzle) (web3 : Web3)
    (account : string) :
  Js.truthy (selectAccount store) = Some account →
  processBlock store block drizzle web3 true =
    ([Select_account; Select_subscriptions; Put (BLOCK_PROCESSING block)]
       ++ map (fun entry => Put (CONTRACT_SYNCING (snd entry))) (contracts drizzle),
     Ok tt)
  ∧ Saga.emitted (fst (processBlock store block drizzle web3 true)) =
      BLOCK_PROCESSING block
        :: map (fun entry => CONTRACT_SYNCING (snd entry)) (contracts drizzle)
  ∧ (∀ f, Await_getPastLogs f ∉ fst (processBlock store block drizzle web3 true))
  ∧ (∀ request,
       BATCH_CALL_REQUEST request ∉
         Saga.emitted (fst (processBlock store block drizzle web3 true))).
Proof.
  intros Hacc.
  rewrite (trace_of_syncAlways _ _ _ _ account Hacc). cbn [fst].
  assert (Saga.emitted
            ([Select_account; Select_subscriptions; Put (BLOCK_PROCESSING block)]
               ++ map (fun entry => Put (CONTRACT_SYNCING (snd entry))) (contracts drizzle))
          = BLOCK_PROCESSING block
              :: map (fun entry => CONTRACT_SYNCING (snd entry)) (contracts drizzle))
    as Hputs.
  { cbn. f_equal.
    rewrite <- (emitted_puts (map _ (contracts drizzle))), map_map. reflexivity. }
  split_and!; [reflexivity | exact Hputs | |].
  - intros f Hin. apply elem_of_app in Hin as [Hin|Hin].
    + repeat (apply elem_of_cons in Hin as [Hin|Hin]; [discriminate|]).
      inversion Hin.
    + apply list_elem_of_fmap in Hin as (entry & Heq & _). discriminate.
  - intros request Hin. rewrite Hputs in Hin.
    apply elem_of_cons in Hin as [Hin|Hin]; [discriminate|].
    apply list_elem_of_fmap in Hin as (entry & Heq & _). discriminate.
Qed.

Lemma processBlock_syncAlways_witness :
  Saga.emitted
    (fst (processBlock (Fixtures.store (Some Fixtures.lowerAddress) [])
            Fixtures.txBlock Fixtures.drizzle
            (Fixtures.web3 (Throw (Rejected "provider down"))) true)) =
    [BLOCK_PROCESSING Fixtures.txBlock;
     CONTRACT_SYNCING Fixtures.vault; CONTRACT_SYNCING Fixtures.token].
Proof.
  destruct (processBlock_syncAlways (Fixtures.store (Some Fixtures.lowerAddress) [])
              Fixtures.txBlock Fixtures.drizzle
              (Fixtures.web3 (Throw (Rejected "provider down")))
              Fixtures.lowerAddress) as (_ & H & _).
  - reflexivity.
  - exact H.
Defined.

(** C5: without an account [processBlock] yields the account select and
    returns; nothing is put, not even [BLOCK_PROCESSING].  The same holds on
    the header path once the block has been fetched. *)
Theorem processBlock_without_account
    (store : Store) (block : Block) (drizzle : Drizzle) (web3 : Web3)
    (syncAlways : bool) :
  Js.truthy (selectAccount store) = None →
  processBlock store block drizzle web3 syncAlways = ([Select_account], Ok tt)
  ∧ Saga.emitted (fst (processBlock store block drizzle web3 syncAlways)) = []
  ∧ (∀ blockHeader,
       eth_getBlock web3 (header_number blockHeader) true = Ok block →
       Saga.emitted
         (fst (processBlockHeader store blockHeader drizzle web3 syncAlways)) = []).
Proof.
  intros Hacc.
  pose proof (processBlock_falsy_account store block drizzle web3 syncAlways Hacc) as Hp.
  split_and!.
  - exact Hp.
  - rewrite Hp. reflexivity.
  - intros blockHeader Hblock.
    unfold processBlockHeader, Saga.try_catch, Saga.bind, Saga.yield.
    rewrite Hblock, Hp. reflexivity.
Qed.

Lemma processBlock_without_account_witness :
  Saga.emitted
    (fst (processBlock (Fixtures.store None [Fixtures.subscription [Fixtures.lowerAddress]])
            Fixtures.txBlock Fixtures.drizzle (Fixtures.web3 (Ok [])) false)) = [].
Proof.
  destruct (processBlock_without_account
              (Fixtures.store None [Fixtures.subscription [Fixtures.lowerAddress]])
              Fixtures.txBlock Fixtures.drizzle (Fixtures.web3 (Ok [])) false)
    as (_ & H & _).
  - reflexivity.
  - exact H.
Defined.

(** ** The pool of forked workers *)

Lemma emitted_by_app (n : nat) (l1 l2 : list (nat * Effect)) :
  emitted_by n (l1 ++ l2) = emitted_by n l1 ++ emitted_by n l2.
Proof. unfold emitted_by. by rewrite List.filter_app, map_app. Qed.

Lemma forallb_false_lookup {A} (f : A → bool) (l : list A) :
  forallb f l = false → ∃ n x, l !! n = Some x ∧ f x = false.
Proof.
  induction l as [|x l IH]; [discriminate|]. cbn.
  destruct (f x) eqn:Hx.
  - intros H. destruct (IH H) as (n & y & Hn & Hy). by exists (S n), y.
  - intros _. by exists 0%nat, x.
Qed.

Lemma processBlockHeader_returns
    (store : Store) (blockHeader : BlockHeader) (drizzle : Drizzle) (web3 : Web3)
    (syncAlways : bool) :
  snd (processBlockHeader store blockHeader drizzle web3 syncAlways) = Ok tt.
Proof.
  unfold processBlockHeader, Saga.try_catch, Saga.bind, Saga.yield.
  destruct (eth_getBlock web3 (header_number blockHeader) true) as [block|e];
    [|reflexivity].
  destruct (processBlock_shapes store block drizzle web3 syncAlways) as [Hok _].
  destruct (processBlock store block drizzle web3 syncAlways) as [t r].
  cbn [snd] in Hok. subst r. reflexivity.
Qed.

Section PoolRuns.

Variable BlockTracker : Type.
Variable tracker_stop : BlockTracker → Promise unit * BlockTracker.

Local Abbreviation forked := (forked_tasks BlockTracker tracker_stop).
Local Abbreviation step := (pool_step BlockTracker tracker_stop).
Local Abbreviation inv := (pool_inv BlockTracker tracker_stop).

Lemma forked_tasks_snoc (inputs : list (Input BlockTracker)) (i : Input BlockTracker) :
  forked (inputs ++ [i]) = forked inputs ++ fork BlockTracker tracker_stop i.
Proof.
  unfold forked_tasks. rewrite map_app, List.concat_app. cbn. by rewrite app_nil_r.
Qed.

Lemma pool_inv_root (inputs : list (Input BlockTracker)) : inv inputs (root inputs).
Proof.
  exists 0%nat. cbn. split_and!; done.
Qed.

Lemma pool_inv_step (inputs : list (Input BlockTracker)) (c : Choice)
    (p p' : Pool BlockTracker) :
  inv inputs p → step c p = Some p' → inv inputs p'.
Proof.
  intros (k & Hpend & Hlen & Htasks & Hfresh & Habort) Hstep.
  unfold pool_step in Hstep.
  destruct (aborted p) as [e0|] eqn:Hab; [discriminate|].
  destruct c as [|n].
  - (* the next action is dispatched *)
    destruct (pending p) as [|i rest] eqn:Hp; [discriminate|].
    injection Hstep as <-.
    assert (inputs !! k = Some i) as Hk.
    { pose proof (lookup_drop inputs k 0) as Hl.
      rewrite <- Hpend in Hl. cbn in Hl. by rewrite Nat.add_0_r in Hl. }
    exists (S k). cbn [pending tasks log aborted].
    rewrite (take_S_r _ _ _ Hk), forked_tasks_snoc.
    split_and!.
    + rewrite (drop_S _ _ _ Hk) in Hpend. by injection Hpend.
    + by rewrite !length_app, Hlen.
    + intros n full Hfull.
      destruct (decide (n < List.length (tasks p))%nat) as [Hlt|Hge].
      * rewrite lookup_app_l in Hfull by lia.
        destruct (Htasks n full Hfull) as (t & Ht & Hout & Htrace).
        exists t. rewrite lookup_app_l by lia. by split_and!.
      * rewrite lookup_app_r in Hfull by lia.
        exists full. rewrite lookup_app_r by lia. rewrite Hlen.
        split_and!; [exact Hfull | reflexivity |].
        by rewrite Hfresh by lia.
    + intros n Hn. rewrite length_app in Hn. apply Hfresh. lia.
    + intros e He. discriminate.
  - (* task [n] is resumed *)
    destruct (tasks p !! n) as [t|] eqn:Ht; [|discriminate].
    assert (n < List.length (tasks p))%nat as Hn by (by eapply lookup_lt_Some).
    destruct (remaining t) as [|eff effs] eqn:Hrem.
    + destruct (outcome t) as [[]|e] eqn:Hout; [discriminate|].
      injection Hstep as <-.
      exists k. cbn [pending tasks log aborted]. split_and!; try done.
      intros e' [= <-].
      destruct (lookup_lt_is_Some_2 (forked (take k inputs)) n) as [full Hfull];
        [lia|].
      exists n, full. split; [exact Hfull|].
      destruct (Htasks n full Hfull) as (t' & Ht' & Hout' & _).
      congruence.
    + injection Hstep as <-.
      exists k. cbn [pending tasks log aborted].
      split_and!; [done | by rewrite length_insert | | | done].
      * intros m full Hfull.
        destruct (Htasks m full Hfull) as (t' & Ht' & Hout' & Htrace).
        rewrite emitted_by_app.
        destruct (decide (n = m)) as [->|Hne].
        -- rewrite list_lookup_insert_eq by exact Hn.
           eexists. split; [reflexivity|].
           assert (t' = t) as -> by congruence.
           cbn [outcome remaining]. split; [exact Hout'|].
           unfold emitted_by at 2. cbn. rewrite Nat.eqb_refl. cbn.
           rewrite <- Htrace, Hrem, <- app_assoc. reflexivity.
        -- rewrite list_lookup_insert_ne by exact Hne.
           exists t'. split_and!; [exact Ht' | exact Hout' |].
           unfold emitted_by at 2. cbn.
           replace (n =? m)%nat with false by (symmetry; by apply Nat.eqb_neq).
           cbn. by rewrite app_nil_r.
      * intros m Hm. rewrite length_insert in Hm.
        rewrite emitted_by_app, Hfresh by exact Hm.
        unfold emitted_by. cbn.
        replace (n =? m)%nat with false by (symmetry; apply Nat.eqb_neq; lia).
        reflexivity.
Qed.

Lemma pool_inv_run (inputs : list (Input BlockTracker)) (schedule : list Choice)
    (p : Pool BlockTracker) :
  run_schedule BlockTracker tracker_stop schedule (root inputs) = Some p →
  inv inputs p.
Proof.
  assert (∀ p0, inv inputs p0 →
                run_schedule BlockTracker tracker_stop schedule p0 = Some p →
                inv inputs p) as Hgen.
  { induction schedule as [|c schedule IH]; intros p0 Hinv Hrun.
    - cbn in Hrun. by injection Hrun as <-.
    - cbn [run_schedule] in Hrun.
      destruct (step c p0) as [p1|] eqn:Hstep; [|discriminate].
      apply (IH p1); [|exact Hrun]. by apply (pool_inv_step inputs c p0). }
  apply Hgen, pool_inv_root.
Qed.

Lemma settled_inv (p : Pool BlockTracker) :
  settled p = true →
  pending p = [] ∧ aborted p = None
  ∧ ∀ n t, tasks p !! n = Some t → remaining t = [] ∧ outcome t = Ok tt.
Proof.
  unfold settled. destruct (pending p); [|discriminate].
  destruct (aborted p); [discriminate|].
  intros Hall. split_and!; [done..|].
  intros n t Ht. rewrite forallb_forall in Hall.
  assert (In t (tasks p)) as Hin.
  { apply list_elem_of_In. by eapply list_elem_of_lookup_2. }
  specialize (Hall t Hin).
  destruct (remaining t); [|discriminate].
  destruct (outcome t) as [[]|]; [done | discriminate].
Qed.

(** In a settled pool every forked task has performed exactly the trace of
    its worker, and none ended with an error. *)
Lemma pool_settled (inputs : list (Input BlockTracker)) (schedule : list Choice)
    (p : Pool BlockTracker) :
  run_schedule BlockTracker tracker_stop schedule (root inputs) = Some p →
  settled p = true →
  ∀ n t, forked inputs !! n = Some t →
         emitted_by n (log p) = remaining t ∧ outcome t = Ok tt.
Proof.
  intros Hrun Hsettled n full Hfull.
  destruct (pool_inv_run inputs schedule p Hrun)
    as (k & Hpend & _ & Htasks & _ & _).
  destruct (settled_inv p Hsettled) as (Hnil & _ & Hdone).
  rewrite Hnil in Hpend.
  assert (take k inputs = inputs) as Htake.
  { apply take_ge. pose proof (length_drop inputs k) as Hl.
    rewrite <- Hpend in Hl. cbn in Hl. lia. }
  rewrite Htake in Htasks.
  destruct (Htasks n full Hfull) as (t & Ht & Hout & Htrace).
  destruct (Hdone n t Ht) as [Hrem Hok].
  rewrite Hrem, app_nil_r in Htrace. split; [exact Htrace | congruence].
Qed.

(** An abort carries the error of a task forked for one of the inputs. *)
Lemma pool_aborted (inputs : list (Input BlockTracker)) (schedule : list Choice)
    (p : Pool BlockTracker) (e : Error) :
  run_schedule BlockTracker tracker_stop schedule (root inputs) = Some p →
  aborted p = Some e →
  ∃ i w, i ∈ inputs ∧ w ∈ takeEvery_workers (input_action i)
         ∧ snd (run_worker BlockTracker tracker_stop (input_store i w)
                  (input_sources i) w (input_action i)) = Throw e.
Proof.
  intros Hrun Hab.
  destruct (pool_inv_run inputs schedule p Hrun) as (k & _ & _ & _ & _ & Habort).
  destruct (Habort e Hab) as (n & full & Hfull & Hout).
  apply list_elem_of_lookup_2 in Hfull. unfold forked_tasks in Hfull.
  apply list_elem_of_In, in_concat in Hfull as (ts & Hts & Hin).
  apply in_map_iff in Hts as (i & <- & Hi).
  unfold fork in Hin. apply in_map_iff in Hin as (w & <- & Hw).
  exists i, w. split_and!.
  - apply list_elem_of_In in Hi. by apply (subseteq_take k inputs).
  - by apply list_elem_of_In.
  - exact Hout.
Qed.

(** Every task forked for an input has a number in the pool. *)
Lemma forked_tasks_lookup (inputs : list (Input BlockTracker)) (i : Input BlockTracker)
    (t : Task) :
  i ∈ inputs → t ∈ fork BlockTracker tracker_stop i → ∃ n, forked inputs !! n = Some t.
Proof.
  intros Hi Ht. apply list_elem_of_lookup_1. unfold forked_tasks.
  apply list_elem_of_In, in_concat.
  exists (fork BlockTracker tracker_stop i). split.
  - apply in_map. by apply list_elem_of_In.
  - by apply list_elem_of_In.
Qed.

(** A pool that is neither aborted nor settled can move. *)
Lemma pool_progress (p : Pool BlockTracker) :
  aborted p = None → settled p = false → ∃ c p', step c p = Some p'.
Proof.
  intros Hab Hns. unfold settled in Hns. rewrite Hab in Hns.
  destruct (pending p) as [|i rest] eqn:Hp.
  - apply forallb_false_lookup in Hns as (n & t & Ht & Hbad).
    exists (Resume n). unfold pool_step. rewrite Hab, Ht.
    destruct (remaining t) as [|eff effs]; [|by eexists].
    destruct (outcome t) as [[]|e]; [discriminate | by eexists].
  - exists Dispatch. unfold pool_step. rewrite Hab, Hp. by eexists.
Qed.

(** The workers of the block paths never end with an error. *)
Lemma block_worker_returns (store : Store) (sources : Sources BlockTracker)
    (w : Worker) (a : Action) :
  w ∈ takeEvery_workers a → w ≠ W_updateAccountEth →
  snd (run_worker BlockTracker tracker_stop store sources w a) = Ok tt.
Proof.
  intros Hw Hne.
  destruct a;
    match goal with
    | H : _ ∈ takeEvery_workers ?x |- _ =>
        let ws := eval vm_compute in (takeEvery_workers x) in
        change (takeEvery_workers x) with ws in H
    end;
    repeat (apply elem_of_cons in Hw as [->|Hw]); try done; try (by inversion Hw).
  - apply processBlockHeader_returns.
  - apply processBlock_shapes.
Qed.

End PoolRuns.

(** ** Failures of one block *)

(** C6: [processBlock] never lets an error escape; with an account set and
    [syncAlways] false, an error of the log query or of the scan of logs
    and transactions (a malformed log or block, a failing registry or
    checksum call) leaves [BLOCK_PROCESSING] in place and adds exactly one
    [BLOCK_FAILED] carrying that error; whatever the [try] block performed
    before an error, the [catch] clause adds that one [BLOCK_FAILED] and
    returns normally; on the header path a failing block fetch is caught
    the same way.  For each [BLOCK_FOUND] and [BLOCK_RECEIVED] action
    [takeEvery] forks the block worker, and under every schedule of the
    forked workers an abort of the root saga never comes from a block
    worker, a pool that has not aborted can always move on until it is
    settled, and in a settled pool every worker, those of the blocks that
    followed a failed block included, has performed exactly its own
    trace. *)
Theorem processBlock_failure_contained :
  (∀ store block drizzle web3 syncAlways,
     snd (processBlock store block drizzle web3 syncAlways) = Ok tt)
  ∧ (∀ store block drizzle web3 account e,
       Js.truthy (selectAccount store) = Some account →
       (eth_getPastLogs web3 (blockLogFilter block) = Throw e
        ∨ ∃ logs, eth_getPastLogs web3 (blockLogFilter block) = Ok logs
                  ∧ collectPendingSync drizzle web3 account block logs = Throw e) →
       Saga.emitted (fst (processBlock store block drizzle web3 false)) =
         [BLOCK_PROCESSING block; BLOCK_FAILED e])
  ∧ (∀ (performed : list Effect) (e : Error),
       Saga.try_catch ((performed, Throw e) : Saga unit)
         (fun error => Saga.put (BLOCK_FAILED error)) =
         (performed ++ [Put (BLOCK_FAILED e)], Ok tt))
  ∧ (∀ store blockHeader drizzle web3 syncAlways,
       snd (processBlockHeader store blockHeader drizzle web3 syncAlways) = Ok tt
       ∧ ∀ e, eth_getBlock web3 (header_number blockHeader) true = Throw e →
              fst (processBlockHeader store blockHeader drizzle web3 syncAlways) =
                [Call_getBlock (header_number blockHeader) true; Put (BLOCK_FAILED e)])
  ∧ (∀ (BlockTracker : Type)
       (tracker_stop : BlockTracker → Promise unit * BlockTracker)
       (i : Input BlockTracker),
       (∀ block drizzle web3 syncAlways,
          input_action i = BLOCK_FOUND block drizzle web3 syncAlways →
          fork BlockTracker tracker_stop i =
            [task_of (processBlock (input_store i W_processBlock)
                        block drizzle web3 syncAlways)])
       ∧ (∀ blockHeader drizzle web3 syncAlways,
            input_action i = BLOCK_RECEIVED blockHeader drizzle web3 syncAlways →
            fork BlockTracker tracker_stop i =
              [task_of (processBlockHeader (input_store i W_processBlockHeader)
                          blockHeader drizzle web3 syncAlways);
               task_of (updateAccountEth (input_store i W_updateAccountEth)
                          (Some web3))]))
  ∧ (∀ (BlockTracker : Type)
       (tracker_stop : BlockTracker → Promise unit * BlockTracker)
       (inputs : list (Input BlockTracker)) (schedule : list Choice)
       (p : Pool BlockTracker),
       run_schedule BlockTracker tracker_stop schedule (root inputs) = Some p →
       (∀ e, aborted p = Some e →
             ∃ i, i ∈ inputs
                  ∧ W_updateAccountEth ∈ takeEvery_workers (input_action i)
                  ∧ snd (run_worker BlockTracker tracker_stop
                           (input_store i W_updateAccountEth) (input_sources i)
                           W_updateAccountEth (input_action i)) = Throw e)
       ∧ (settled p = true →
          ∀ n t, forked_tasks BlockTracker tracker_stop inputs !! n = Some t →
                 emitted_by n (log p) = remaining t)
       ∧ (aborted p = None → settled p = false →
          ∃ c p', pool_step BlockTracker tracker_stop c p = Some p')).
Proof.
  split_and!.
  - intros. apply processBlock_shapes.
  - intros store block drizzle web3 account e Hacc [Hlogs|(logs & Hlogs & Hcollect)].
    + rewrite (processBlock_query_failed _ _ _ _ account e Hacc Hlogs). reflexivity.
    + rewrite (processBlock_collect_failed _ _ _ _ account logs e Hacc Hlogs Hcollect).
      reflexivity.
  - reflexivity.
  - intros store blockHeader drizzle web3 syncAlways.
    split; [apply processBlockHeader_returns|].
    intros e Hblock.
    unfold processBlockHeader, Saga.try_catch, Saga.bind, Saga.yield.
    rewrite Hblock. reflexivity.
  - intros BlockTracker tracker_stop i. split.
    + intros block drizzle web3 syncAlways Ha. unfold fork. rewrite Ha. reflexivity.
    + intros blockHeader drizzle web3 syncAlways Ha. unfold fork. rewrite Ha.
      reflexivity.
  - intros BlockTracker tracker_stop inputs schedule p Hrun. split_and!.
    + intros e Hab.
      destruct (pool_aborted BlockTracker tracker_stop inputs schedule p e Hrun Hab)
        as (i & w & Hi & Hw & Hthrow).
      assert (w = W_updateAccountEth ∨ w ≠ W_updateAccountEth) as [->|Hne]
        by (destruct w; [right | left | right..]; congruence).
      * by exists i.
      * rewrite (block_worker_returns BlockTracker tracker_stop _ _ w _ Hw Hne)
          in Hthrow.
        discriminate.
    + intros Hsettled n t Ht.
      by destruct (pool_settled BlockTracker tracker_stop inputs schedule p Hrun
                     Hsettled n t Ht).
    + apply pool_progress.
Qed.

Lemma processBlock_failure_contained_witness :
  map fst (log MoreFixtures.afterTwoBlocks) = [0; 0; 0; 0; 1; 1; 1; 1; 0; 1]%nat
  ∧ Saga.emitted (emitted_by 0 (log MoreFixtures.afterTwoBlocks)) =
      [BLOCK_PROCESSING Fixtures.emptyBlock; BLOCK_FAILED (Rejected "provider down")]
  ∧ Saga.emitted (emitted_by 1 (log MoreFixtures.afterTwoBlocks)) =
      [BLOCK_PROCESSING Fixtures.txBlock;
       BATCH_CALL_REQUEST [Fixtures.subscription [Fixtures.lowerAddress]]].
Proof.
  destruct processBlock_failure_contained as (_ & Hfail & _ & _ & _ & Hpool).
  assert (run_schedule _ Fixtures.strict_stop MoreFixtures.interleaved
            (root MoreFixtures.twoBlocks) = Some MoreFixtures.afterTwoBlocks) as Hrun
    by (vm_compute; reflexivity).
  destruct (Hpool _ _ _ _ _ Hrun) as (_ & Hsettled & _).
  assert (settled MoreFixtures.afterTwoBlocks = true) as Hp by (vm_compute; reflexivity).
  split_and!.
  - vm_compute. reflexivity.
  - rewrite (Hsettled Hp 0%nat
               (task_of (processBlock
                           (Fixtures.store (Some Fixtures.lowerAddress)
                              [Fixtures.subscription [Fixtures.lowerAddress]])
                           Fixtures.emptyBlock Fixtures.drizzle
                           (Fixtures.web3 (Throw (Rejected "provider down"))) false)))
      by reflexivity.
    apply (Hfail _ _ _ _ Fixtures.lowerAddress); [reflexivity | by left].
  - rewrite (Hsettled Hp 1%nat
               (task_of (processBlock
                           (Fixtures.store (Some Fixtures.lowerAddress)
                              [Fixtures.subscription [Fixtures.lowerAddress]])
                           Fixtures.txBlock Fixtures.drizzle
                           (Fixtures.web3 (Ok [])) false)))
      by reflexivity.
    vm_compute. reflexivity.
Defined.

(** ** What the workers put *)

Lemma bind_emitted_Forall {A B} (P : Action → Prop) (m : Saga A) (k : A → Saga B) :
  Forall P (Saga.emitted (fst m)) →
  (∀ x, Forall P (Saga.emitted (fst (k x)))) →
  Forall P (Saga.emitted (fst (Saga.bind m k))).
Proof.
  intros Hm Hk. unfold Saga.bind. destruct m as [t [a|e]]; [|exact Hm].
  specialize (Hk a). destruct (k a) as [t' r]. cbn [fst] in *.
  rewrite emitted_app. by apply Forall_app.
Qed.

Lemma processBlock_outputs
    (store : Store) (block : Block) (drizzle : Drizzle) (web3 : Web3) (syncAlways : bool) :
  Forall (fun out => workers out = [])
    (Saga.emitted (fst (processBlock store block drizzle web3 syncAlways))).
Proof.
  destruct (processBlock_shapes store block drizzle web3 syncAlways)
    as [_ [Hp|[Hp|[[request Hp]|[e Hp]]]]]; cbn zeta in Hp; rewrite Hp.
  - constructor.
  - constructor; [reflexivity|]. apply Forall_forall. intros out Hout.
    apply list_elem_of_fmap in Hout as (entry & -> & _). reflexivity.
  - by repeat constructor.
  - by repeat constructor.
Qed.



(** ** Balance refresh *)

Lemma processBlock_never_fetching
    (store : Store) (block : Block) (drizzle : Drizzle) (web3 : Web3) (syncAlways : bool) :
  ACCOUNT_BALANCES_FETCHING ∉
    Saga.emitted (fst (processBlock store block drizzle web3 syncAlways)).
Proof.
  destruct (processBlock_shapes store block drizzle web3 syncAlways)
    as [_ [Hp|[Hp|[[request Hp]|[e Hp]]]]]; cbn zeta in Hp; rewrite Hp; intros Hin.
  - inversion Hin.
  - apply elem_of_cons in Hin as [Hin|Hin]; [discriminate|].
    apply list_elem_of_fmap in Hin as (entry & Heq & _). discriminate.
  - repeat (apply elem_of_cons in Hin as [Hin|Hin]; [discriminate|]). inversion Hin.
  - repeat (apply elem_of_cons in Hin as [Hin|Hin]; [discriminate|]). inversion Hin.
Qed.

(** C9: [updateAccountEth] puts [ACCOUNT_BALANCES_FETCHING] before anything
    else; without an account or without web3 it puts nothing more; with
    both, and the balance query answered with [ethBalance], it puts
    [ETH_BALANCE_UPDATED] with that balance.  In [blocksSaga] the worker is
    registered for [APP_READY] and [BLOCK_RECEIVED] actions and for no
    other action.  For an [APP_READY] action [takeEvery] forks
    [updateAccountEth] on the action's web3, for a [BLOCK_RECEIVED] action
    it forks [processBlockHeader] and [updateAccountEth] on the action's
    web3, and for a [BLOCK_FOUND] action it forks [processBlock] alone,
    which never puts [ACCOUNT_BALANCES_FETCHING] and puts nothing that
    starts a worker; in every settled run of
    the forked workers the [updateAccountEth] forked for an [APP_READY] or
    [BLOCK_RECEIVED] action has performed its whole trace. *)
Theorem updateAccountEth_spec :
  (∀ store web3, ∃ rest,
     fst (updateAccountEth store web3) = Put ACCOUNT_BALANCES_FETCHING :: rest)
  ∧ (∀ store web3,
       Js.truthy (selectAccount store) = None ∨ web3 = None →
       updateAccountEth store web3 =
         ([Put ACCOUNT_BALANCES_FETCHING; Select_account], Ok tt))
  ∧ (∀ store web3 account ethBalance,
       Js.truthy (selectAccount store) = Some account →
       eth_getBalance web3 account = Ok ethBalance →
       updateAccountEth store (Some web3) =
         ([Put ACCOUNT_BALANCES_FETCHING; Select_account; Await_getBalance account;
           Put (ETH_BALANCE_UPDATED ethBalance)], Ok tt))
  ∧ (∀ a, W_updateAccountEth ∈ workers a ↔
          matches P_APP_READY a = true ∨ matches P_BLOCK_RECEIVED a = true)
  ∧ (∀ store block drizzle web3 syncAlways,
       workers (BLOCK_FOUND block drizzle web3 syncAlways) = [W_processBlock]
       ∧ (ACCOUNT_BALANCES_FETCHING ∉
            Saga.emitted (fst (processBlock store block drizzle web3 syncAlways)))
       ∧ Forall (fun out => workers out = [])
           (Saga.emitted (fst (processBlock store block drizzle web3 syncAlways))))
  ∧ (∀ (BlockTracker : Type)
       (tracker_stop : BlockTracker → Promise unit * BlockTracker)
       (i : Input BlockTracker),
       (∀ web3,
          input_action i = APP_READY web3 →
          fork BlockTracker tracker_stop i =
            [task_of (updateAccountEth (input_store i W_updateAccountEth) web3)])
       ∧ (∀ blockHeader drizzle web3 syncAlways,
            input_action i = BLOCK_RECEIVED blockHeader drizzle web3 syncAlways →
            fork BlockTracker tracker_stop i =
              [task_of (processBlockHeader (input_store i W_processBlockHeader)
                          blockHeader drizzle web3 syncAlways);
               task_of (updateAccountEth (input_store i W_updateAccountEth)
                          (Some web3))])
       ∧ (∀ block drizzle web3 syncAlways,
            input_action i = BLOCK_FOUND block drizzle web3 syncAlways →
            fork BlockTracker tracker_stop i =
              [task_of (processBlock (input_store i W_processBlock)
                          block drizzle web3 syncAlways)]))
  ∧ (∀ (BlockTracker : Type)
       (tracker_stop : BlockTracker → Promise unit * BlockTracker)
       (inputs : list (Input BlockTracker)) (schedule : list Choice)
       (p : Pool BlockTracker) (i : Input BlockTracker) (web3 : option Web3),
       run_schedule BlockTracker tracker_stop schedule (root inputs) = Some p →
       settled p = true →
       i ∈ inputs →
       input_action i = APP_READY web3
       ∨ (∃ blockHeader drizzle w syncAlways,
            input_action i = BLOCK_RECEIVED blockHeader drizzle w syncAlways
            ∧ web3 = Some w) →
       ∃ n, emitted_by n (log p) =
              fst (updateAccountEth (input_store i W_updateAccountEth) web3)).
Proof.
  split_and!.
  - intros store web3. unfold updateAccountEth, Saga.bind, Saga.put, Saga.yield.
    destruct (Js.truthy (selectAccount store)) as [account|]; [destruct web3 as [web3|]|].
    + destruct (eth_getBalance web3 account); eexists; reflexivity.
    + eexists; reflexivity.
    + eexists; reflexivity.
  - intros store web3 [Hacc| ->];
      unfold updateAccountEth, Saga.bind, Saga.put, Saga.yield.
    + rewrite Hacc. reflexivity.
    + destruct (Js.truthy (selectAccount store)); reflexivity.
  - intros store web3 account ethBalance Hacc Hbal.
    unfold updateAccountEth, Saga.bind, Saga.put, Saga.yield.
    rewrite Hacc, Hbal. reflexivity.
  - intros a. destruct a; cbn.
    all: split; [intros H | intros [H|H]].
    all: try discriminate H.
    all: try (left; reflexivity); try (right; reflexivity).
    all: try (repeat (apply elem_of_cons in H as [H|H]; [discriminate H|]);
              by inversion H).
    all: apply list_elem_of_In; cbn; tauto.
  - intros store block drizzle web3 syncAlways. split_and!; [reflexivity | |].
    + apply processBlock_never_fetching.
    + apply processBlock_outputs.
  - intros BlockTracker tracker_stop i. split_and!.
    + intros web3 Ha. unfold fork. rewrite Ha. reflexivity.
    + intros blockHeader drizzle web3 syncAlways Ha. unfold fork. rewrite Ha.
      reflexivity.
    + intros block drizzle web3 syncAlways Ha. unfold fork. rewrite Ha. reflexivity.
  - intros BlockTracker tracker_stop inputs schedule p i web3 Hrun Hsettled Hi Ha.
    assert (task_of (updateAccountEth (input_store i W_updateAccountEth) web3)
            ∈ fork BlockTracker tracker_stop i) as Hforked.
    { unfold fork.
      destruct Ha as [Ha|(blockHeader & drizzle & w & syncAlways & Ha & ->)];
        rewrite Ha; cbn; set_solver. }
    destruct (forked_tasks_lookup BlockTracker tracker_stop inputs i _ Hi Hforked)
      as [n Hn].
    exists n.
    by destruct (pool_settled BlockTracker tracker_stop inputs schedule p Hrun
                   Hsettled n _ Hn).
Qed.

Lemma updateAccountEth_spec_witness :
  Saga.emitted
    (fst (updateAccountEth (Fixtures.store (Some Fixtures.lowerAddress) [])
            (Some (Fixtures.web3 (Ok []))))) =
    [ACCOUNT_BALANCES_FETCHING; ETH_BALANCE_UPDATED "1000000000000000000"]
  ∧ Saga.emitted (fst (updateAccountEth (Fixtures.store None []) None)) =
      [ACCOUNT_BALANCES_FETCHING]
  ∧ ∃ n, emitted_by n (log MoreFixtures.afterHeader) =
           [Put ACCOUNT_BALANCES_FETCHING; Select_account;
            Await_getBalance Fixtures.lowerAddress;
            Put (ETH_BALANCE_UPDATED "1000000000000000000")].
Proof.
  destruct updateAccountEth_spec as (_ & Hnone & Hsome & _ & _ & _ & Hrun).
  split_and!.
  - rewrite (Hsome _ _ Fixtures.lowerAddress "1000000000000000000");
      reflexivity.
  - rewrite Hnone; [reflexivity | by left].
  - destruct (Hrun _ Fixtures.strict_stop
                [MoreFixtures.headerReceived (Fixtures.web3 (Ok []))]
                MoreFixtures.headerSchedule MoreFixtures.afterHeader
                (MoreFixtures.headerReceived (Fixtures.web3 (Ok [])))
                (Some (Fixtures.web3 (Ok [])))) as [n Hn].
    + vm_compute. reflexivity.
    + vm_compute. reflexivity.
    + by left.
    + right. by eexists _, _, _, _.
    + exists n. rewrite Hn.
      rewrite (Hsome _ _ Fixtures.lowerAddress "1000000000000000000"); reflexivity.
Defined.

(** A rejected balance query is not caught: it escapes the worker after
    [ACCOUNT_BALANCES_FETCHING]. *)
Lemma updateAccountEth_query_rejected (store : Store) (web3 : Web3)
    (account : string) (e : Error) :
  Js.truthy (selectAccount store) = Some account →
  eth_getBalance web3 account = Throw e →
  updateAccountEth store (Some web3) =
    ([Put ACCOUNT_BALANCES_FETCHING; Select_account; Await_getBalance account], Throw e).
Proof.
  intros Hacc Hbal. unfold updateAccountEth, Saga.bind, Saga.put, Saga.yield.
  rewrite Hacc, Hbal. reflexivity.
Qed.

(** ** The block header channel *)

Section BlockChannel.

Variables (drizzle : Drizzle) (web3 : Web3) (syncAlways : bool).

Local Abbreviation step := (blockChannel_step drizzle web3 syncAlways).

Lemma blockChannel_step_closed (c : EventChannel.t nat) (ev : SubscriptionEvent) :
  EventChannel.closed c = true → step c ev = c.
Proof.
  intros Hc. unfold step, blockChannel_step, EventChannel.emit, EventChannel.close.
  destruct ev as [[error|]|blockHeader|error|]; rewrite ?Hc; cbn; rewrite ?Hc;
    reflexivity.
Qed.

Lemma blockChannel_run_closed (c : EventChannel.t nat) (evs : list SubscriptionEvent) :
  EventChannel.closed c = true → fold_left step evs c = c.
Proof.
  intros Hc. induction evs as [|ev evs IH]; [reflexivity|].
  cbn. rewrite (blockChannel_step_closed c ev Hc). exact IH.
Qed.

Lemma blockChannel_step_error (c : EventChannel.t nat) (ev : SubscriptionEvent)
    (e : Error) :
  EventChannel.closed c = false →
  subscription_error ev = Some e →
  EventChannel.closed (step c ev) = true
  ∧ EventChannel.emitted (step c ev) = EventChannel.emitted c ++ [BLOCKS_FAILED e].
Proof.
  intros Hc Hev. unfold step, blockChannel_step, EventChannel.emit, EventChannel.close.
  destruct ev as [[error|]|blockHeader|error|]; cbn in Hev; try discriminate;
    injection Hev as ->; rewrite Hc; cbn; by split.
Qed.

Lemma blockChannel_inv_step (c : EventChannel.t nat) (ev : SubscriptionEvent) :
  blockChannel_inv c → blockChannel_inv (step c ev).
Proof.
  intros Hinv. destruct (EventChannel.closed c) eqn:Hc.
  { by rewrite (blockChannel_step_closed c ev Hc). }
  destruct Hinv as (pre & Hpre & [Hem|[Hclosed _]]); [|congruence].
  destruct (subscription_error ev) as [e|] eqn:Hev.
  - destruct (blockChannel_step_error c ev e Hc Hev) as [Hcl Hemit].
    exists pre. split; [done|]. right. split; [done|].
    exists e. by rewrite Hemit, Hem.
  - unfold step, blockChannel_step, EventChannel.emit, EventChannel.close.
    destruct ev as [[error|]|blockHeader|error|]; cbn in Hev; try discriminate;
      rewrite ?Hc; cbn.
    + exists pre. split; [done | by left].
    + exists (pre ++ [BLOCK_RECEIVED blockHeader drizzle web3 syncAlways]).
      split; [|left; by rewrite Hem].
      apply Forall_app. split; [done | by repeat constructor].
    + exists pre. split; [done | by left].
Qed.

Lemma blockChannel_inv_run (c : EventChannel.t nat) (evs : list SubscriptionEvent) :
  blockChannel_inv c → blockChannel_inv (fold_left step evs c).
Proof.
  revert c. induction evs as [|ev evs IH]; intros c Hinv; [exact Hinv|].
  cbn. apply IH, blockChannel_inv_step, Hinv.
Qed.

Lemma blockChannel_inv_init : blockChannel_inv createBlockChannel.
Proof. exists []. split; [constructor | by left]. Qed.

(** A failure inside a trace that satisfies the invariant is its last
    event, and the channel is closed. *)
Lemma blockChannel_inv_failed (c : EventChannel.t nat) (pre post : list Action)
    (e : Error) :
  blockChannel_inv c →
  EventChannel.emitted c = pre ++ BLOCKS_FAILED e :: post →
  post = [] ∧ EventChannel.closed c = true
  ∧ Forall (fun a => is_BLOCK_RECEIVED a = true) pre.
Proof.
  intros (pre0 & Hpre0 & Hcase) Hem.
  assert (BLOCKS_FAILED e ∉ pre0) as Hnotin.
  { intros Hin. rewrite Forall_forall in Hpre0.
    specialize (Hpre0 _ Hin). discriminate. }
  destruct Hcase as [Heq|(Hclosed & e0 & Heq)].
  - exfalso. apply Hnotin. rewrite <- Heq, Hem. set_solver.
  - rewrite Hem in Heq.
    induction post as [|x post' _] using rev_ind.
    + apply app_inj_tail in Heq as [-> _]. by split_and!.
    + exfalso. apply Hnotin.
      change (pre ++ BLOCKS_FAILED e :: post' ++ [x])
        with (pre ++ (BLOCKS_FAILED e :: post') ++ [x]) in Heq.
      rewrite app_assoc in Heq. apply app_inj_tail in Heq as [<- _].
      set_solver.
Qed.

End BlockChannel.

(** C7: on any sequence of subscription events and consumer closes, a
    [BLOCKS_FAILED] in what the header channel emitted is its last event,
    comes after block headers only, and leaves the channel closed; and a
    subscription error that reaches an open channel makes the channel emit
    exactly what it had emitted so far followed by one [BLOCKS_FAILED] with
    that error, and closes it, whatever events follow. *)
Theorem createBlockChannel_failure_terminal
    (drizzle : Drizzle) (web3 : Web3) (syncAlways : bool) :
  (∀ evs pre e post,
     EventChannel.emitted (blockChannel_run drizzle web3 syncAlways evs) =
       pre ++ BLOCKS_FAILED e :: post →
     post = []
     ∧ EventChannel.closed (blockChannel_run drizzle web3 syncAlways evs) = true
     ∧ Forall (fun a => is_BLOCK_RECEIVED a = true) pre)
  ∧ (∀ evs1 ev evs2 e,
       subscription_error ev = Some e →
       EventChannel.closed (blockChannel_run drizzle web3 syncAlways evs1) = false →
       EventChannel.emitted (blockChannel_run drizzle web3 syncAlways (evs1 ++ ev :: evs2)) =
         EventChannel.emitted (blockChannel_run drizzle web3 syncAlways evs1)
           ++ [BLOCKS_FAILED e]
       ∧ EventChannel.closed
           (blockChannel_run drizzle web3 syncAlways (evs1 ++ ev :: evs2)) = true
       ∧ Forall (fun a => is_BLOCK_RECEIVED a = true)
           (EventChannel.emitted (blockChannel_run drizzle web3 syncAlways evs1))).
Proof.
  split.
  - intros evs pre e post Hem.
    apply (blockChannel_inv_failed _ pre post e); [|exact Hem].
    apply blockChannel_inv_run, blockChannel_inv_init.
  - intros evs1 ev evs2 e Hev Hopen.
    unfold blockChannel_run in *. rewrite fold_left_app. cbn [fold_left].
    set (c := fold_left (blockChannel_step drizzle web3 syncAlways) evs1
                createBlockChannel) in *.
    destruct (blockChannel_step_error drizzle web3 syncAlways c ev e Hopen Hev)
      as [Hcl Hemit].
    rewrite (blockChannel_run_closed drizzle web3 syncAlways _ evs2 Hcl).
    split_and!; [exact Hemit | exact Hcl |].
    assert (blockChannel_inv c) as (pre & Hpre & Hcase)
      by apply blockChannel_inv_run, blockChannel_inv_init.
    destruct Hcase as [->|[Hclosed _]]; [exact Hpre | congruence].
Qed.

Lemma createBlockChannel_failure_terminal_witness :
  EventChannel.emitted
    (blockChannel_run Fixtures.drizzle (Fixtures.web3 (Ok [])) false
       ([Callback None; Data {| header_number := 7 |}]
          ++ Callback (Some (Rejected "connection lost"))
          :: [ErrorEvent (Rejected "connection lost"); Data {| header_number := 8 |}])) =
    [BLOCK_RECEIVED {| header_number := 7 |} Fixtures.drizzle (Fixtures.web3 (Ok [])) false;
     BLOCKS_FAILED (Rejected "connection lost")].
Proof.
  destruct (createBlockChannel_failure_terminal
              Fixtures.drizzle (Fixtures.web3 (Ok [])) false) as [_ H].
  destruct (H [Callback None; Data {| header_number := 7 |}]
              (Callback (Some (Rejected "connection lost")))
              [ErrorEvent (Rejected "connection lost"); Data {| header_number := 8 |}]
              (Rejected "connection lost")) as (Hem & _ & _).
  - reflexivity.
  - reflexivity.
  - rewrite Hem. reflexivity.
Defined.

(** ** The poll channel *)

(** C8: whatever the tracker's [stop()] does in whatever state, the
    unsubscribe function of the poll channel lets no error escape, so
    closing the channel raises nothing; closing a closed channel changes
    nothing and does not call [stop()] again; and once closed the channel
    ignores whatever the tracker still delivers. *)
Theorem createBlockPollChannel_close_swallows
    (BlockTracker : Type) (tracker_stop : BlockTracker → Promise unit * BlockTracker)
    (c : EventChannel.t BlockTracker) :
  let unsubscribe := pollChannel_unsubscribe BlockTracker tracker_stop in
  (∀ blockTracker, snd (unsubscribe blockTracker) = None)
  ∧ snd (EventChannel.close unsubscribe c) = None
  ∧ EventChannel.close unsubscribe (fst (EventChannel.close unsubscribe c)) =
      (fst (EventChannel.close unsubscribe c), None)
  ∧ (∀ drizzle web3 syncAlways ev,
       pollChannel_step BlockTracker tracker_stop drizzle web3 syncAlways
         (fst (EventChannel.close unsubscribe c)) ev =
       fst (EventChannel.close unsubscribe c)).
Proof.
  intros unsubscribe.
  assert (EventChannel.closed (fst (EventChannel.close unsubscribe c)) = true) as Hclosed.
  { unfold EventChannel.close. destruct (EventChannel.closed c) eqn:Hc; [exact Hc|].
    destruct (unsubscribe (EventChannel.resource c)) as [r err]. reflexivity. }
  assert (∀ blockTracker, snd (unsubscribe blockTracker) = None) as Hswallow.
  { intros blockTracker. unfold unsubscribe, pollChannel_unsubscribe.
    destruct (tracker_stop blockTracker) as [[[]|e] blockTracker']; reflexivity. }
  split_and!; [exact Hswallow | | |].
  - unfold EventChannel.close. destruct (EventChannel.closed c); [reflexivity|].
    specialize (Hswallow (EventChannel.resource c)).
    destruct (unsubscribe (EventChannel.resource c)) as [r err]. exact Hswallow.
  - set (c' := fst (EventChannel.close unsubscribe c)) in *.
    unfold EventChannel.close. by rewrite Hclosed.
  - intros drizzle web3 syncAlways ev.
    set (c' := fst (EventChannel.close unsubscribe c)) in *.
    unfold pollChannel_step, EventChannel.emit, EventChannel.close.
    fold unsubscribe. destruct ev; rewrite ?Hclosed; cbn; rewrite ?Hclosed; reflexivity.
Qed.

(** Stopping a tracker that was never started, twice. *)
Example createBlockPollChannel_close_twice :
  let unsubscribe := pollChannel_unsubscribe _ Fixtures.strict_stop in
  let c := createBlockPollChannel _ Fixtures.NeverStarted in
  EventChannel.close unsubscribe c =
    ({| EventChannel.closed := true; EventChannel.emitted := [];
        EventChannel.resource := Fixtures.NeverStarted |}, None)
  ∧ EventChannel.close unsubscribe (fst (EventChannel.close unsubscribe c)) =
      (fst (EventChannel.close unsubscribe c), None).
Proof. split; reflexivity. Qed.

(** ** Letter case of addresses *)

(** When the account string holds no upper-case letter after its "0x", the
    test of [checkForTransactions] is the case-insensitive suffix test. *)
Lemma transactionAffectsUser_lower_account (account from to : string) :
  Js.toLowerCase (Js.replace_0x account) = Js.replace_0x account →
  transactionAffectsUser account from to =
    Js.endsWith (Js.toLowerCase from) (Js.toLowerCase (Js.replace_0x account))
    || Js.endsWith (Js.toLowerCase to) (Js.toLowerCase (Js.replace_0x account)).
Proof. intros Hlower. unfold transactionAffectsUser. rewrite Hlower. reflexivity. Qed.

(** C2: the code at an account in checksum spelling.  The second topic of
    the log is the account address padded to 32 bytes (it ends with the
    account's hex digits up to letter case), yet the test fails, because
    only the topic is lower-cased: the log is skipped and the block's
    request is empty.  With the account in lower case the same log is
    recorded under the checksummed log address. *)
Theorem checkForTransactions_mixed_case_account :
  Js.endsWith (Js.toLowerCase Fixtures.paddedTopic)
    (Js.toLowerCase (Js.replace_0x Fixtures.checksumAddress)) = true
  ∧ transactionAffectsUser Fixtures.checksumAddress
      Fixtures.paddedTopic Fixtures.otherTopic = false
  ∧ checkForTransactions Fixtures.drizzle (Fixtures.web3 (Ok []))
      Fixtures.checksumAddress ∅ Fixtures.transferLog = Ok ∅
  ∧ checkForTransactions Fixtures.drizzle (Fixtures.web3 (Ok []))
      Fixtures.lowerAddress ∅ Fixtures.transferLog =
      Ok (<[Fixtures.checksumAddress := Some Fixtures.vault]> ∅)
  ∧ Saga.emitted
      (fst (processBlock
              (Fixtures.store (Some Fixtures.checksumAddress)
                 [Fixtures.subscription [Fixtures.checksumAddress]])
              Fixtures.emptyBlock Fixtures.drizzle
              (Fixtures.web3 (Ok [Fixtures.transferLog])) false)) =
      [BLOCK_PROCESSING Fixtures.emptyBlock; BATCH_CALL_REQUEST []].
Proof. split_and!; vm_compute; reflexivity. Qed.

(** C3: the code at two spellings of one address.  A transaction sent from
    a registered contract is recorded under the raw lower-case address of
    the transaction, a log of the same contract under its checksummed
    address; the intersection compares the strings as they are, so a
    subscription that spells the address the other way is left out of the
    request, and a block with both a transaction and a log keeps two keys
    for the one contract. *)
Theorem processBlock_mixed_spellings :
  Js.toLowerCase Fixtures.checksumAddress = Fixtures.lowerAddress
  ∧ collectPendingSync Fixtures.drizzle (Fixtures.web3 (Ok []))
      Fixtures.lowerAddress Fixtures.txBlock [] =
      Ok (<[Fixtures.lowerAddress := Some Fixtures.vault]> ∅)
  ∧ Saga.emitted
      (fst (processBlock
              (Fixtures.store (Some Fixtures.lowerAddress)
                 [Fixtures.subscription [Fixtures.checksumAddress]])
              Fixtures.txBlock Fixtures.drizzle (Fixtures.web3 (Ok [])) false)) =
      [BLOCK_PROCESSING Fixtures.txBlock; BATCH_CALL_REQUEST []]
  ∧ collectPendingSync Fixtures.drizzle (Fixtures.web3 (Ok []))
      Fixtures.lowerAddress Fixtures.emptyBlock [Fixtures.transferLog] =
      Ok (<[Fixtures.checksumAddress := Some Fixtures.vault]> ∅)
  ∧ Saga.emitted
      (fst (processBlock
              (Fixtures.store (Some Fixtures.lowerAddress)
                 [Fixtures.subscription [Fixtures.lowerAddress]])
              Fixtures.emptyBlock Fixtures.drizzle
              (Fixtures.web3 (Ok [Fixtures.transferLog])) false)) =
      [BLOCK_PROCESSING Fixtures.emptyBlock; BATCH_CALL_REQUEST []]
  ∧ collectPendingSync Fixtures.drizzle (Fixtures.web3 (Ok []))
      Fixtures.lowerAddress Fixtures.txBlock [Fixtures.transferLog] =
      Ok (<[Fixtures.lowerAddress := Some Fixtures.vault]>
            (<[Fixtures.checksumAddress := Some Fixtures.vault]> ∅)).
Proof. split_and!; vm_compute; reflexivity. Qed.

(** * Further properties *)

(** ** Strings *)

Lemma lower_ascii_idem (c : ascii) : Js.lower_ascii (Js.lower_ascii c) = Js.lower_ascii c.
Proof. destruct c as [[] [] [] [] [] [] [] []]; reflexivity. Qed.

Lemma toLowerCase_idem (s : string) : Js.toLowerCase (Js.toLowerCase s) = Js.toLowerCase s.
Proof.
  induction s as [|c s IH]; [reflexivity|].
  cbn. by rewrite lower_ascii_idem, IH.
Qed.

Lemma toLowerCase_app (a b : string) :
  Js.toLowerCase (a ++ b)%string = (Js.toLowerCase a ++ Js.toLowerCase b)%string.
Proof. induction a as [|c a IH]; [reflexivity|]. simpl. rewrite IH. reflexivity. Qed.

(** A suffix of a string without upper-case letters has none either. *)
Lemma toLowerCase_suffix (p t : string) :
  Js.toLowerCase (p ++ t)%string = (p ++ t)%string → Js.toLowerCase t = t.
Proof.
  induction p as [|c p IH]; [done|].
  cbn. intros H. injection H as _ H. by apply IH.
Qed.

Lemma string_length_app (a b : string) :
  String.length (a ++ b)%string = (String.length a + String.length b)%nat.
Proof. induction a as [|c a IH]; [reflexivity|]. simpl. rewrite IH. reflexivity. Qed.

Lemma substring_whole (s : string) : substring 0 (String.length s) s = s.
Proof. induction s as [|c s IH]; [reflexivity|]. cbn. by rewrite IH. Qed.

Lemma substring_app_r (p t : string) :
  substring (String.length p) (String.length t) (p ++ t)%string = t.
Proof. induction p as [|c p IH]; [apply substring_whole | exact IH]. Qed.

Lemma substring_split (s : string) (n m : nat) :
  (n + m)%nat = String.length s →
  s = (substring 0 n s ++ substring n m s)%string.
Proof.
  revert n. induction s as [|c s IH]; intros n Hlen.
  - destruct n, m; try discriminate. reflexivity.
  - destruct n as [|n].
    + cbn in Hlen. subst m. cbn [substring]. rewrite substring_whole.
      reflexivity.
    + cbn in Hlen. injection Hlen as Hlen.
      cbn [substring]. rewrite (IH n Hlen) at 1. reflexivity.
Qed.

(** [_.endsWith] holds exactly for the suffixes. *)
Lemma endsWith_suffix (s target : string) :
  Js.endsWith s target = true ↔ ∃ p, s = (p ++ target)%string.
Proof.
  unfold Js.endsWith. split.
  - destruct (String.length target <=? String.length s)%nat eqn:Hle; [|discriminate].
    apply Nat.leb_le in Hle. intros Heq. apply String.eqb_eq in Heq.
    exists (substring 0 (String.length s - String.length target) s).
    pose proof (substring_split s (String.length s - String.length target)
                  (String.length target) ltac:(lia)) as Hs.
    rewrite Heq in Hs. exact Hs.
  - intros [p ->]. rewrite string_length_app.
    replace (String.length target <=? String.length p + String.length target)%nat
      with true by (symmetry; apply Nat.leb_le; lia).
    replace (String.length p + String.length target - String.length target)%nat
      with (String.length p) by lia.
    rewrite substring_app_r. apply String.eqb_refl.
Qed.

(** ** The relevance test *)

(** X1: for an account "0x" followed by digits without upper-case letters,
    a topic that ends with those digits in any letter case makes the log
    relevant, whether it is the sender or the recipient topic and whatever
    precedes the digits. *)
Theorem transactionAffectsUser_any_topic_case (digits pad t other : string) :
  Js.toLowerCase digits = digits →
  Js.toLowerCase t = digits →
  transactionAffectsUser (String "0" (String "x" digits)) (pad ++ t)%string other = true
  ∧ transactionAffectsUser (String "0" (String "x" digits)) other (pad ++ t)%string = true.
Proof.
  intros Hdigits Ht.
  assert (Js.endsWith (Js.toLowerCase (pad ++ t)%string) digits = true) as Hends.
  { apply endsWith_suffix. exists (Js.toLowerCase pad).
    by rewrite toLowerCase_app, Ht. }
  unfold transactionAffectsUser. cbn [Js.replace_0x]. rewrite Hends.
  split; [reflexivity | apply orb_true_r].
Qed.

Lemma transactionAffectsUser_any_topic_case_witness :
  transactionAffectsUser Fixtures.lowerAddress
    "0x0000000000000000000000005AAEB6053F3E94C9B9A09F33669435E7EF1BEAED"
    Fixtures.otherTopic = true.
Proof.
  apply (transactionAffectsUser_any_topic_case
           "5aaeb6053f3e94c9b9a09f33669435e7ef1beaed"
           "0x000000000000000000000000"
           "5AAEB6053F3E94C9B9A09F33669435E7EF1BEAED"
           Fixtures.otherTopic); reflexivity.
Defined.

(** X2: when the account, once its "0x" is removed, holds an upper-case
    letter, no pair of topics passes the test: the topics are lower-cased
    before the comparison and the account is not. *)
Theorem transactionAffectsUser_upper_case_account (account from to : string) :
  Js.toLowerCase (Js.replace_0x account) ≠ Js.replace_0x account →
  transactionAffectsUser account from to = false.
Proof.
  intros Hupper.
  assert (∀ topic, Js.endsWith (Js.toLowerCase topic) (Js.replace_0x account) = false)
    as Hnever.
  { intros topic.
    destruct (Js.endsWith (Js.toLowerCase topic) (Js.replace_0x account)) eqn:Hends;
      [|reflexivity].
    exfalso. apply Hupper.
    apply endsWith_suffix in Hends as [p Hp].
    apply (toLowerCase_suffix p). rewrite <- Hp. apply toLowerCase_idem. }
  unfold transactionAffectsUser. by rewrite !Hnever.
Qed.

Lemma transactionAffectsUser_upper_case_account_witness :
  transactionAffectsUser Fixtures.checksumAddress Fixtures.paddedTopic
    Fixtures.paddedTopic = false.
Proof.
  apply transactionAffectsUser_upper_case_account. vm_compute. discriminate.
Defined.

(** ** The scan of logs and transactions *)

Lemma checkForTransactions_result (drizzle : Drizzle) (web3 : Web3) (account : string)
    (pending pending' : gmap string (option Contract)) (log : Log) :
  checkForTransactions drizzle web3 account pending log = Ok pending' →
  (log_is_relevant account log = false ∧ pending' = pending)
  ∨ (log_is_relevant account log = true
     ∧ ∃ addr contract key,
         address log = Some addr
         ∧ findContractByAddress drizzle (Js.toLowerCase addr) = Ok contract
         ∧ utils_toChecksumAddress web3 addr = Ok key
         ∧ pending' = <[key := contract]> pending).
Proof.
  unfold checkForTransactions, log_is_relevant.
  destruct (topics log) as [ts|]; [|discriminate].
  destruct (Js.truthy (ts !! 1%nat)) as [from|];
    [|intros [= <-]; by left].
  destruct (Js.truthy (ts !! 2%nat)) as [to|];
    [|intros [= <-]; by left].
  destruct (transactionAffectsUser account from to);
    [|intros [= <-]; by left].
  destruct (address log) as [addr|]; [|discriminate].
  unfold rbind.
  destruct (findContractByAddress drizzle (Js.toLowerCase addr)) as [contract|]
    eqn:Hfind; [|discriminate].
  destruct (utils_toChecksumAddress web3 addr) as [key|] eqn:Hkey; [|discriminate].
  intros [= <-]. right. split; [reflexivity|].
  exists addr, contract, key. by split_and!.
Qed.

Lemma log_scan_dom (drizzle : Drizzle) (web3 : Web3) (account : string)
    (logs : list Log) (pending0 pending : gmap string (option Contract)) :
  each (checkForTransactions drizzle web3 account) logs pending0 = Ok pending →
  ∀ key, is_Some (pending !! key) ↔
         is_Some (pending0 !! key)
         ∨ ∃ log addr, log ∈ logs ∧ log_is_relevant account log = true
                       ∧ address log = Some addr
                       ∧ utils_toChecksumAddress web3 addr = Ok key.
Proof.
  revert pending0. induction logs as [|log logs IH]; intros pending0 Heach key.
  - cbn in Heach. injection Heach as <-. split; [by left|].
    intros [H|(log & addr & Hin & _)]; [exact H | inversion Hin].
  - cbn [each] in Heach. unfold rbind in Heach.
    destruct (checkForTransactions drizzle web3 account pending0 log)
      as [pending1|] eqn:Hlog; [|discriminate].
    rewrite (IH _ Heach key).
    apply checkForTransactions_result in Hlog
      as [[Hrel ->]|(Hrel & addr & contract & k & Haddr & _ & Hk & ->)].
    + split.
      * intros [H|(l & a & Hin & H)]; [by left|].
        right. exists l, a. split; [by right | exact H].
      * intros [H|(l & a & Hin & Hr & H)]; [by left|].
        apply elem_of_cons in Hin as [->|Hin]; [congruence|].
        right. by exists l, a.
    + split.
      * intros [H|(l & a & Hin & H)].
        -- destruct (decide (k = key)) as [<-|Hne].
           ++ right. exists log, addr. split_and!; [by left | done..].
           ++ left. by rewrite lookup_insert_ne in H.
        -- right. exists l, a. split; [by right | exact H].
      * intros [H|(l & a & Hin & Hr & Ha & Hcs)].
        -- left. destruct (decide (k = key)) as [<-|Hne].
           ++ rewrite lookup_insert_eq. by eexists.
           ++ by rewrite lookup_insert_ne.
        -- apply elem_of_cons in Hin as [->|Hin].
           ++ left. assert (k = key) as <- by congruence.
              rewrite lookup_insert_eq. by eexists.
           ++ right. by exists l, a.
Qed.

(** X3: when the loop over the logs succeeds, the keys of the pending-sync
    object, which starts empty, are exactly the checksummed addresses of
    the relevant logs, whether or not the registry knows the contract. *)
Theorem log_scan_keys (drizzle : Drizzle) (web3 : Web3) (account : string)
    (logs : list Log) (pending : gmap string (option Contract)) :
  each (checkForTransactions drizzle web3 account) logs ∅ = Ok pending →
  ∀ key, key ∈ Object_keys pending ↔
         ∃ log addr, log ∈ logs ∧ log_is_relevant account log = true
                     ∧ address log = Some addr
                     ∧ utils_toChecksumAddress web3 addr = Ok key.
Proof.
  intros Heach key.
  rewrite Object_keys_elem_of, (log_scan_dom _ _ _ _ _ _ Heach key), lookup_empty.
  split; [|by right].
  intros [[v Hv]|H]; [discriminate | exact H].
Qed.

Lemma log_scan_keys_witness :
  Fixtures.checksumAddress ∈
    Object_keys (<[Fixtures.checksumAddress := Some Fixtures.vault]> ∅).
Proof.
  apply (log_scan_keys Fixtures.drizzle (Fixtures.web3 (Ok [])) Fixtures.lowerAddress
           [Fixtures.transferLog]).
  - vm_compute. reflexivity.
  - exists Fixtures.transferLog, Fixtures.lowerAddress.
    split_and!; [by left | reflexivity..].
Defined.

Lemma checkTransaction_result (drizzle : Drizzle)
    (pending pending' : gmap string (option Contract)) (tx : Transaction) :
  checkTransaction drizzle pending tx = Ok pending' →
  ∃ fromContract toContract,
    findContractByAddress drizzle (Js.toLowerCase (Js.or_empty (tx_from tx)))
      = Ok fromContract
    ∧ findContractByAddress drizzle (Js.toLowerCase (Js.or_empty (tx_to tx)))
        = Ok toContract
    ∧ pending' = record (Js.or_empty (tx_to tx)) toContract
                   (record (Js.or_empty (tx_from tx)) fromContract pending).
Proof.
  unfold checkTransaction, rbind.
  destruct (findContractByAddress drizzle (Js.toLowerCase (Js.or_empty (tx_from tx))))
    as [fromContract|]; [|discriminate].
  destruct (findContractByAddress drizzle (Js.toLowerCase (Js.or_empty (tx_to tx))))
    as [toContract|]; [|discriminate].
  intros [= <-]. exists fromContract, toContract.
  split_and!; [reflexivity..|].
  destruct fromContract, toContract; reflexivity.
Qed.

Lemma record_lookup (key k : string) (contract : option Contract)
    (pending : gmap string (option Contract)) :
  record key contract pending !! k =
    match contract with
    | Some c => if decide (key = k) then Some (Some c) else pending !! k
    | None => pending !! k
    end.
Proof.
  unfold record. destruct contract as [c|]; [|reflexivity].
  apply lookup_insert.
Qed.

Lemma record_step (drizzle : Drizzle) (tx : Transaction)
    (fc tc : option Contract) (pending0 : gmap string (option Contract)) (key : string) :
  findContractByAddress drizzle (Js.toLowerCase (Js.or_empty (tx_from tx))) = Ok fc →
  findContractByAddress drizzle (Js.toLowerCase (Js.or_empty (tx_to tx))) = Ok tc →
  (is_Some (record (Js.or_empty (tx_to tx)) tc
              (record (Js.or_empty (tx_from tx)) fc pending0) !! key) ↔
     is_Some (pending0 !! key)
     ∨ ∃ c, key ∈ tx_endpoints tx
            ∧ findContractByAddress drizzle (Js.toLowerCase key) = Ok (Some c))
  ∧ (∀ c, findContractByAddress drizzle (Js.toLowerCase key) = Ok (Some c) →
          pending0 !! key = Some (Some c) ∨ key ∈ tx_endpoints tx →
          record (Js.or_empty (tx_to tx)) tc
            (record (Js.or_empty (tx_from tx)) fc pending0) !! key = Some (Some c)).
Proof.
  intros Hfrom Hto. unfold tx_endpoints.
  set (from := Js.or_empty (tx_from tx)) in *.
  set (to := Js.or_empty (tx_to tx)) in *.
  rewrite !record_lookup. split; [split|].
  - intros H.
    destruct tc as [c|]; [destruct (decide (to = key)) as [<-|Hne]|].
    + right. exists c. split; [set_solver | exact Hto].
    + destruct fc as [c'|]; [destruct (decide (from = key)) as [<-|Hne']|];
        [right; exists c'; split; [set_solver | exact Hfrom] | by left..].
    + destruct fc as [c'|]; [destruct (decide (from = key)) as [<-|Hne']|];
        [right; exists c'; split; [set_solver | exact Hfrom] | by left..].
  - intros [H|(c & Hin & Hfind)].
    + destruct tc as [c|]; [destruct (decide (to = key))|];
        [by eexists | |];
        (destruct fc as [c'|]; [destruct (decide (from = key))|];
           [by eexists | exact H..]).
    + apply elem_of_cons in Hin as [->|Hin].
      * rewrite Hfrom in Hfind. injection Hfind as ->.
        destruct tc as [c'|]; [destruct (decide (to = from))|];
          [by eexists | |]; (destruct (decide (from = from)); [by eexists | done]).
      * apply list_elem_of_singleton in Hin as ->.
        rewrite Hto in Hfind. injection Hfind as ->.
        destruct (decide (to = to)); [by eexists | done].
  - intros c Hfind Hcase.
    assert (to = key → tc = Some c) as Htc.
    { intros <-. rewrite Hto in Hfind. by injection Hfind. }
    assert (from = key → fc = Some c) as Hfc.
    { intros <-. rewrite Hfrom in Hfind. by injection Hfind. }
    destruct tc as [c1|].
    + destruct (decide (to = key)) as [He|Hne].
      { specialize (Htc He). by injection Htc as ->. }
      destruct fc as [c2|].
      * destruct (decide (from = key)) as [He'|Hne'].
        { specialize (Hfc He'). by injection Hfc as ->. }
        destruct Hcase as [H|Hin]; [exact H|]. set_solver.
      * destruct Hcase as [H|Hin]; [exact H|].
        apply elem_of_cons in Hin as [->|Hin]; [by specialize (Hfc eq_refl)|].
        apply list_elem_of_singleton in Hin as ->. done.
    + destruct fc as [c2|].
      * destruct (decide (from = key)) as [He'|Hne'].
        { specialize (Hfc He'). by injection Hfc as ->. }
        destruct Hcase as [H|Hin]; [exact H|].
        apply elem_of_cons in Hin as [->|Hin]; [done|].
        apply list_elem_of_singleton in Hin as ->. by specialize (Htc eq_refl).
      * destruct Hcase as [H|Hin]; [exact H|].
        apply elem_of_cons in Hin as [->|Hin]; [by specialize (Hfc eq_refl)|].
        apply list_elem_of_singleton in Hin as ->. by specialize (Htc eq_refl).
Qed.

Lemma transaction_scan_value (drizzle : Drizzle) (txs : list Transaction)
    (pending0 pending : gmap string (option Contract)) (key : string) (c : Contract) :
  each (checkTransaction drizzle) txs pending0 = Ok pending →
  findContractByAddress drizzle (Js.toLowerCase key) = Ok (Some c) →
  pending0 !! key = Some (Some c) ∨ (∃ tx, tx ∈ txs ∧ key ∈ tx_endpoints tx) →
  pending !! key = Some (Some c).
Proof.
  revert pending0. induction txs as [|tx txs IH]; intros pending0 Heach Hfind Hcase.
  - cbn in Heach. injection Heach as <-.
    destruct Hcase as [H|(tx & Hin & _)]; [exact H | inversion Hin].
  - cbn [each] in Heach. unfold rbind in Heach.
    destruct (checkTransaction drizzle pending0 tx) as [pending1|] eqn:Htx;
      [|discriminate].
    apply checkTransaction_result in Htx as (fc & tc & Hfrom & Hto & ->).
    destruct (record_step drizzle tx fc tc pending0 key Hfrom Hto) as [_ Hval].
    apply (IH _ Heach Hfind).
    destruct Hcase as [H|(tx' & Hin & Hk)].
    + left. apply (Hval c Hfind). by left.
    + apply elem_of_cons in Hin as [->|Hin].
      * left. apply (Hval c Hfind). by right.
      * right. by exists tx'.
Qed.

Lemma transaction_scan_dom (drizzle : Drizzle) (txs : list Transaction)
    (pending0 pending : gmap string (option Contract)) :
  each (checkTransaction drizzle) txs pending0 = Ok pending →
  ∀ key,
    is_Some (pending !! key) ↔
    is_Some (pending0 !! key)
    ∨ ∃ tx c, tx ∈ txs ∧ key ∈ tx_endpoints tx
              ∧ findContractByAddress drizzle (Js.toLowerCase key) = Ok (Some c).
Proof.
  intros Heach key.
  - revert pending0 Heach. induction txs as [|tx txs IH]; intros pending0 Heach.
    + cbn in Heach. injection Heach as <-.
      split; [by left|]. intros [H|(tx & c & Hin & _)]; [exact H | inversion Hin].
    + cbn [each] in Heach. unfold rbind in Heach.
      destruct (checkTransaction drizzle pending0 tx) as [pending1|] eqn:Htx;
        [|discriminate].
      apply checkTransaction_result in Htx as (fc & tc & Hfrom & Hto & ->).
      destruct (record_step drizzle tx fc tc pending0 key Hfrom Hto) as [Hstep _].
      rewrite (IH _ Heach), Hstep. split.
      * intros [[H|(c & Hin & Hf)]|(tx' & c & Hin & H)].
        -- by left.
        -- right. exists tx, c. split_and!; [by left | done..].
        -- right. exists tx', c. split; [by right | exact H].
      * intros [H|(tx' & c & Hin & Hk & Hf)]; [by left; left|].
        apply elem_of_cons in Hin as [->|Hin].
        -- left. right. by exists c.
        -- right. by exists tx', c.
Qed.

(** X4: when the loop over the transactions succeeds, the keys of the
    pending-sync object are the keys it had before and the [from] and [to]
    addresses, as the transactions spell them, that the registry resolves
    from their lower-case form; each such address is then found with the
    contract the registry returned for it. *)
Theorem transaction_scan_keys (drizzle : Drizzle) (txs : list Transaction)
    (pending0 pending : gmap string (option Contract)) :
  each (checkTransaction drizzle) txs pending0 = Ok pending →
  ∀ key,
    (is_Some (pending !! key) ↔
       is_Some (pending0 !! key)
       ∨ ∃ tx c, tx ∈ txs ∧ key ∈ tx_endpoints tx
                 ∧ findContractByAddress drizzle (Js.toLowerCase key) = Ok (Some c))
    ∧ (∀ tx c, tx ∈ txs → key ∈ tx_endpoints tx →
               findContractByAddress drizzle (Js.toLowerCase key) = Ok (Some c) →
               pending !! key = Some (Some c)).
Proof.
  intros Heach key. split.
  - apply (transaction_scan_dom drizzle txs pending0 pending Heach).
  - intros tx c Hin Hk Hfind.
    apply (transaction_scan_value drizzle txs pending0 pending key c Heach Hfind).
    right. by exists tx.
Qed.

Lemma transaction_scan_keys_witness :
  (<[Fixtures.lowerAddress := Some Fixtures.vault]>
     (∅ : gmap string (option Contract))) !! Fixtures.lowerAddress
  = Some (Some Fixtures.vault).
Proof.
  assert (each (checkTransaction Fixtures.drizzle)
            [ {| tx_from := Some Fixtures.lowerAddress; tx_to := None |} ] ∅
          = Ok (<[Fixtures.lowerAddress := Some Fixtures.vault]> ∅)) as Heach.
  { vm_compute. reflexivity. }
  destruct (transaction_scan_keys _ _ _ _ Heach Fixtures.lowerAddress) as [_ H].
  apply (H {| tx_from := Some Fixtures.lowerAddress; tx_to := None |} Fixtures.vault).
  - by left.
  - by left.
  - reflexivity.
Defined.

(** X5: when the scan of a block succeeds, the addresses pending sync are
    exactly the checksummed addresses of the relevant logs and the raw
    transaction endpoints that the registry resolves. *)
Theorem pending_sync_keys (drizzle : Drizzle) (web3 : Web3) (account : string)
    (block : Block) (logs : list Log) (txs : list Transaction)
    (pending : gmap string (option Contract)) :
  transactions block = Some txs →
  collectPendingSync drizzle web3 account block logs = Ok pending →
  ∀ key, key ∈ Object_keys pending ↔
         (∃ log addr, log ∈ logs ∧ log_is_relevant account log = true
                      ∧ address log = Some addr
                      ∧ utils_toChecksumAddress web3 addr = Ok key)
         ∨ (∃ tx c, tx ∈ txs ∧ key ∈ tx_endpoints tx
                    ∧ findContractByAddress drizzle (Js.toLowerCase key) = Ok (Some c)).
Proof.
  intros Htxs Hcollect key. unfold collectPendingSync, rbind in Hcollect.
  destruct (each (checkForTransactions drizzle web3 account) logs ∅)
    as [pending1|] eqn:Hlogs; [|discriminate].
  rewrite Htxs in Hcollect.
  rewrite Object_keys_elem_of.
  rewrite (transaction_scan_dom drizzle txs pending1 pending Hcollect key).
  rewrite (log_scan_dom drizzle web3 account logs ∅ pending1 Hlogs key).
  rewrite lookup_empty. split.
  - intros [[H|H]|H]; [by destruct H | by left | by right].
  - intros [H|H]; [left; by right | by right].
Qed.

Lemma pending_sync_keys_witness :
  Fixtures.lowerAddress ∈
    Object_keys (<[Fixtures.lowerAddress := Some Fixtures.vault]>
                   (<[Fixtures.checksumAddress := Some Fixtures.vault]> ∅)).
Proof.
  apply (pending_sync_keys Fixtures.drizzle (Fixtures.web3 (Ok [])) Fixtures.lowerAddress
           Fixtures.txBlock [Fixtures.transferLog]
           [ {| tx_from := Some Fixtures.lowerAddress; tx_to := None |} ]).
  - reflexivity.
  - vm_compute. reflexivity.
  - right. exists {| tx_from := Some Fixtures.lowerAddress; tx_to := None |}, Fixtures.vault.
    split_and!; [by left | by left | reflexivity].
Defined.

Lemma each_throws {A S} (f : S → A → Result S) (l : list A) (x : A) :
  x ∈ l → (∀ s, ∃ e, f s x = Throw e) → ∀ s, ∃ e, each f l s = Throw e.
Proof.
  intros Hin Hx. induction l as [|y l IH]; intros s; [inversion Hin|].
  cbn [each]. unfold rbind.
  destruct (f s y) as [s'|e] eqn:Hy; [|by exists e].
  apply elem_of_cons in Hin as [->|Hin].
  - destruct (Hx s) as [e He]. congruence.
  - by apply IH.
Qed.

(** X6: one log without a [topics] property, or a block without a
    [transactions] property, fails the whole block: whatever the other logs
    and transactions are, the block emits [BLOCK_PROCESSING] and one
    [BLOCK_FAILED], and no batch request. *)
Theorem malformed_data_fails_block
    (store : Store) (block : Block) (drizzle : Drizzle) (web3 : Web3)
    (account : string) (logs : list Log) :
  Js.truthy (selectAccount store) = Some account →
  eth_getPastLogs web3 (blockLogFilter block) = Ok logs →
  (∃ log, log ∈ logs ∧ topics log = None) ∨ transactions block = None →
  ∃ e, Saga.emitted (fst (processBlock store block drizzle web3 false)) =
         [BLOCK_PROCESSING block; BLOCK_FAILED e].
Proof.
  intros Hacc Hlogs Hbad.
  assert (∃ e, collectPendingSync drizzle web3 account block logs = Throw e)
    as [e Hcollect].
  { unfold collectPendingSync, rbind. destruct Hbad as [(log & Hin & Htopics)|Htxs].
    - destruct (each_throws (checkForTransactions drizzle web3 account) logs log Hin)
        with (s := (∅ : gmap string (option Contract))) as [e ->].
      + intros s. unfold checkForTransactions. rewrite Htopics. by eexists.
      + by exists e.
    - destruct (each (checkForTransactions drizzle web3 account) logs ∅) as [p|e];
        [rewrite Htxs|]; by eexists. }
  exists e.
  by rewrite (processBlock_collect_failed _ _ _ _ account logs e Hacc Hlogs Hcollect).
Qed.

Lemma malformed_data_fails_block_witness :
  ∃ e, Saga.emitted
         (fst (processBlock
                 (Fixtures.store (Some Fixtures.lowerAddress)
                    [Fixtures.subscription [Fixtures.checksumAddress]])
                 Fixtures.txBlock Fixtures.drizzle
                 (Fixtures.web3
                    (Ok [Fixtures.transferLog; {| topics := None; address := None |}]))
                 false)) =
       [BLOCK_PROCESSING Fixtures.txBlock; BLOCK_FAILED e].
Proof.
  apply (malformed_data_fails_block _ _ _ _ Fixtures.lowerAddress
           [Fixtures.transferLog; {| topics := None; address := None |}]).
  - reflexivity.
  - reflexivity.
  - left. exists {| topics := None; address := None |}. split; [|reflexivity].
    right. by left.
Defined.

Lemma baseIntersection_no_others (array result : list string) :
  Js.baseIntersection array [] result = result.
Proof.
  revert result. induction array as [|v array IH]; intros result; [reflexivity|].
  cbn. rewrite andb_false_r. apply IH.
Qed.

Lemma each_unchanged {A S} (f : S → A → Result S) (l : list A) (s : S) :
  (∀ x, x ∈ l → f s x = Ok s) → each f l s = Ok s.
Proof.
  induction l as [|x l IH]; intros Hl; [reflexivity|].
  cbn [each]. rewrite (Hl x) by (by left). cbn. apply IH.
  intros y Hy. apply Hl. by right.
Qed.

(** X7: a block in which no log passes the guards and no transaction
    endpoint is resolved by the registry (in particular a block without
    logs and transactions) emits [BLOCK_PROCESSING] and a
    [BATCH_CALL_REQUEST] with an empty payload, whatever the subscriptions
    are. *)
Theorem quiet_block_empty_request
    (store : Store) (block : Block) (drizzle : Drizzle) (web3 : Web3)
    (account : string) (logs : list Log) (txs : list Transaction) :
  Js.truthy (selectAccount store) = Some account →
  eth_getPastLogs web3 (blockLogFilter block) = Ok logs →
  (∀ log, log ∈ logs → topics log ≠ None ∧ log_is_relevant account log = false) →
  transactions block = Some txs →
  (∀ tx key, tx ∈ txs → key ∈ tx_endpoints tx →
             findContractByAddress drizzle (Js.toLowerCase key) = Ok None) →
  Saga.emitted (fst (processBlock store block drizzle web3 false)) =
    [BLOCK_PROCESSING block; BATCH_CALL_REQUEST []].
Proof.
  intros Hacc Hlogs Hquiet Htxs Hnone.
  assert (collectPendingSync drizzle web3 account block logs = Ok ∅) as Hcollect.
  { unfold collectPendingSync.
    rewrite each_unchanged; [cbn; rewrite Htxs; apply each_unchanged|].
    - intros tx Htx. unfold checkTransaction.
      rewrite (Hnone tx (Js.or_empty (tx_from tx)) Htx) by (by left). cbn.
      rewrite (Hnone tx (Js.or_empty (tx_to tx)) Htx) by (right; by left).
      reflexivity.
    - intros log Hlog. destruct (Hquiet log Hlog) as [Htopics Hrel].
      unfold checkForTransactions. unfold log_is_relevant in Hrel.
      destruct (topics log) as [ts|]; [|done].
      destruct (Js.truthy (ts !! 1%nat)); [|reflexivity].
      destruct (Js.truthy (ts !! 2%nat)); [|reflexivity].
      by rewrite Hrel. }
  rewrite (processBlock_request_trace _ _ _ _ account logs ∅ Hacc Hlogs Hcollect).
  cbn [fst Saga.emitted]. rewrite buildBatchCallRequest_fold.
  assert (Object_keys ∅ = []) as -> by (unfold Object_keys; by rewrite map_to_list_empty).
  assert (filter (fun s => Js.intersection (addresses s) [] ≠ [])
            (selectContractsSubscriptions store) = []) as ->; [|reflexivity].
  induction (selectContractsSubscriptions store) as [|s subs IH]; [reflexivity|].
  rewrite filter_cons.
  destruct (decide _) as [Hne|_]; [|exact IH].
  exfalso. apply Hne. apply baseIntersection_no_others.
Qed.

Lemma quiet_block_empty_request_witness :
  Saga.emitted
    (fst (processBlock
            (Fixtures.store (Some Fixtures.lowerAddress)
               [Fixtures.subscription [Fixtures.lowerAddress; Fixtures.checksumAddress]])
            MoreFixtures.quietBlock Fixtures.drizzle
            (Fixtures.web3 (Ok [MoreFixtures.quietLog])) false)) =
    [BLOCK_PROCESSING MoreFixtures.quietBlock; BATCH_CALL_REQUEST []].
Proof.
  apply (quiet_block_empty_request _ _ _ _ Fixtures.lowerAddress
           [MoreFixtures.quietLog]
           [ {| tx_from := Some "0xfb6916095ca1df60bb79ce92ce3ea74c37c5d359";
                tx_to := None |} ]).
  - reflexivity.
  - reflexivity.
  - intros log Hlog. apply list_elem_of_singleton in Hlog as ->.
    split; [discriminate | reflexivity].
  - reflexivity.
  - intros tx key Htx Hkey. apply list_elem_of_singleton in Htx as ->.
    apply elem_of_cons in Hkey as [->|Hkey]; [reflexivity|].
    apply list_elem_of_singleton in Hkey as ->. reflexivity.
Defined.

(** ** The request *)

Lemma baseIntersection_fixed (array others result : list string) :
  NoDup (result ++ array) → (∀ x, x ∈ array → x ∈ others) →
  Js.baseIntersection array others result = result ++ array.
Proof.
  revert result. induction array as [|v array IH]; intros result Hnd Hin.
  - cbn. by rewrite app_nil_r.
  - cbn [Js.baseIntersection].
    assert (Js.includes result v = false) as ->.
    { destruct (Js.includes result v) eqn:Hres; [|reflexivity].
      apply includes_elem_of in Hres. apply NoDup_app in Hnd as (_ & Hdisj & _).
      exfalso. apply (Hdisj v Hres). by left. }
    assert (Js.includes others v = true) as ->.
    { apply includes_elem_of, Hin. by left. }
    cbn. rewrite IH.
    + by rewrite <- app_assoc.
    + by rewrite <- app_assoc.
    + intros x Hx. apply Hin. by right.
Qed.

Lemma intersection_idem (array others : list string) :
  Js.intersection (Js.intersection array others) others = Js.intersection array others.
Proof.
  destruct (intersection_spec array others) as (Hin & Hnd & _).
  unfold Js.intersection at 1. rewrite baseIntersection_fixed; [reflexivity|exact Hnd|].
  intros x Hx. by apply Hin in Hx as [_ Hx].
Qed.

(** X8: every entry of a request has at least one address, has no address
    twice and has only pending-sync addresses that its subscription listed;
    the request has at most as many entries as there are subscriptions. *)
Theorem request_entries_invariant
    (contractAddressesPendingSync : list string) (subscriptions : list Subscription) :
  let request :=
    fold_left (buildBatchCallRequest contractAddressesPendingSync) subscriptions [] in
  Forall (fun entry =>
            addresses entry ≠ []
            ∧ NoDup (addresses entry)
            ∧ (∀ a, a ∈ addresses entry → a ∈ contractAddressesPendingSync)
            ∧ ∃ s, s ∈ subscriptions ∧ otherFields entry = otherFields s
                   ∧ ∀ a, a ∈ addresses entry → a ∈ addresses s) request
  ∧ (List.length request ≤ List.length subscriptions)%nat.
Proof.
  intros request. unfold request. rewrite buildBatchCallRequest_fold. cbn [app].
  split.
  - apply Forall_forall. intros entry Hentry.
    apply list_elem_of_fmap in Hentry as (s & -> & Hs).
    apply list_elem_of_filter in Hs as [Hne Hs].
    destruct (intersection_spec (addresses s) contractAddressesPendingSync)
      as (Hin & Hnd & _).
    cbn. split_and!; [exact Hne | exact Hnd | |].
    + intros a Ha. by apply Hin in Ha as [_ Ha].
    + exists s. split_and!; [exact Hs | reflexivity |].
      intros a Ha. by apply Hin in Ha as [Ha _].
  - rewrite length_map. apply length_filter.
Qed.

(** X9: building a request from a request, against the same pending-sync
    addresses, gives the request back. *)
Theorem request_idempotent
    (contractAddressesPendingSync : list string) (subscriptions : list Subscription) :
  let build := fold_left (buildBatchCallRequest contractAddressesPendingSync) in
  build (build subscriptions []) [] = build subscriptions [].
Proof.
  intros build. unfold build. rewrite !buildBatchCallRequest_fold. cbn [app].
  induction subscriptions as [|s subs IH]; [reflexivity|].
  rewrite filter_cons. destruct (decide _) as [Hne|He]; [|exact IH].
  cbn [map]. rewrite filter_cons. cbn [addresses set_addresses].
  pose proof (intersection_idem (addresses s) contractAddressesPendingSync) as Hidem.
  destruct (decide _) as [_|Hn]; [|exfalso; apply Hn; by rewrite Hidem].
  cbn [map]. f_equal; [|exact IH].
  unfold set_addresses. cbn [addresses otherFields]. by rewrite Hidem.
Qed.

(** ** The header path *)

Lemma emitted_processBlock_failed_once
    (store : Store) (block : Block) (drizzle : Drizzle) (web3 : Web3) (syncAlways : bool) :
  (List.length
     (List.filter is_BLOCK_FAILED
        (Saga.emitted (fst (processBlock store block drizzle web3 syncAlways)))) ≤ 1)%nat.
Proof.
  destruct (processBlock_shapes store block drizzle web3 syncAlways)
    as [_ [Hp|[Hp|[[request Hp]|[e Hp]]]]]; cbn zeta in Hp; rewrite Hp;
    cbn [List.filter is_BLOCK_FAILED List.length]; try lia.
  assert (List.filter is_BLOCK_FAILED
            (map (fun entry : string * Contract => CONTRACT_SYNCING (snd entry))
               (contracts drizzle)) = []) as ->; [|cbn; lia].
  clear Hp. induction (contracts drizzle) as [|entry l IH]; [reflexivity | exact IH].
Qed.

(** X10: when the block fetch succeeds, processing a header is the fetch of
    the full block by the header's number followed by exactly what
    [processBlock] does on that block; and whether or not the fetch
    succeeds, a header leads to at most one [BLOCK_FAILED]. *)
Theorem processBlockHeader_composes
    (store : Store) (blockHeader : BlockHeader) (drizzle : Drizzle) (web3 : Web3)
    (syncAlways : bool) :
  (∀ block,
     eth_getBlock web3 (header_number blockHeader) true = Ok block →
     processBlockHeader store blockHeader drizzle web3 syncAlways =
       (Call_getBlock (header_number blockHeader) true
          :: fst (processBlock store block drizzle web3 syncAlways), Ok tt))
  ∧ (List.length
       (List.filter is_BLOCK_FAILED
          (Saga.emitted
             (fst (processBlockHeader store blockHeader drizzle web3 syncAlways))))
     ≤ 1)%nat.
Proof.
  assert (∀ block,
            eth_getBlock web3 (header_number blockHeader) true = Ok block →
            processBlockHeader store blockHeader drizzle web3 syncAlways =
              (Call_getBlock (header_number blockHeader) true
                 :: fst (processBlock store block drizzle web3 syncAlways), Ok tt))
    as Hok.
  { intros block Hblock.
    unfold processBlockHeader, Saga.try_catch, Saga.bind, Saga.yield.
    rewrite Hblock.
    destruct (processBlock_shapes store block drizzle web3 syncAlways) as [Hret _].
    destruct (processBlock store block drizzle web3 syncAlways) as [t r].
    cbn [snd] in Hret. subst r. reflexivity. }
  split; [exact Hok|].
  destruct (eth_getBlock web3 (header_number blockHeader) true) as [block|e] eqn:Hblock.
  - rewrite (Hok block eq_refl). cbn [fst Saga.emitted].
    apply emitted_processBlock_failed_once.
  - unfold processBlockHeader, Saga.try_catch, Saga.bind, Saga.yield.
    rewrite Hblock. cbn. lia.
Qed.

Lemma processBlockHeader_composes_witness :
  processBlockHeader (Fixtures.store None []) {| header_number := 7 |}
    Fixtures.drizzle (Fixtures.web3 (Ok [])) false =
    ([Call_getBlock 7 true; Select_account], Ok tt).
Proof.
  destruct (processBlockHeader_composes (Fixtures.store None []) {| header_number := 7 |}
              Fixtures.drizzle (Fixtures.web3 (Ok [])) false) as [H _].
  rewrite (H Fixtures.emptyBlock); reflexivity.
Defined.

(** ** The header channel, continued *)

Section BlockChannelRuns.

Variables (drizzle : Drizzle) (web3 : Web3) (syncAlways : bool).

Local Abbreviation step := (blockChannel_step drizzle web3 syncAlways).

Lemma blockChannel_run_open (c : EventChannel.t nat) (evs : list SubscriptionEvent) :
  EventChannel.closed c = false →
  Forall (fun ev => keeps_open ev = true) evs →
  EventChannel.emitted (fold_left step evs c) =
    EventChannel.emitted c ++ omap (header_action drizzle web3 syncAlways) evs
  ∧ EventChannel.closed (fold_left step evs c) = false
  ∧ EventChannel.resource (fold_left step evs c) = EventChannel.resource c.
Proof.
  revert c. induction evs as [|ev evs IH]; intros c Hc Hevs.
  - cbn. by rewrite app_nil_r.
  - apply Forall_cons in Hevs as [Hev Hevs]. cbn [fold_left].
    destruct ev as [[error|]|blockHeader|error|]; try discriminate.
    + apply (IH c Hc Hevs).
    + destruct (IH (step c (Data blockHeader))) as (Hem & Hcl & Hres).
      * unfold blockChannel_step, EventChannel.emit. by rewrite Hc.
      * exact Hevs.
      * rewrite Hem, Hcl, Hres.
        unfold blockChannel_step, EventChannel.emit. rewrite Hc. cbn.
        by rewrite <- app_assoc.
Qed.

Lemma blockChannel_resource (c : EventChannel.t nat) (ev : SubscriptionEvent) :
  (if EventChannel.closed c then EventChannel.resource c = 1
   else EventChannel.resource c = 0)%nat →
  (if EventChannel.closed (step c ev) then EventChannel.resource (step c ev) = 1
   else EventChannel.resource (step c ev) = 0)%nat.
Proof.
  intros Hinv. destruct (EventChannel.closed c) eqn:Hc.
  - by rewrite (blockChannel_step_closed drizzle web3 syncAlways c ev Hc), Hc.
  - unfold blockChannel_step, EventChannel.emit, EventChannel.close.
    destruct ev as [[error|]|blockHeader|error|]; rewrite ?Hc; cbn; rewrite ?Hc; cbn;
      by rewrite ?Hinv.
Qed.

End BlockChannelRuns.

(** X13: while the subscription delivers only headers and error-free
    callbacks, the header channel stays open, does not unsubscribe, and
    emits one [BLOCK_RECEIVED] per header, in order, each carrying the
    header and the [drizzle], [web3] and [syncAlways] the channel was
    created with. *)
Theorem createBlockChannel_forwards_headers
    (drizzle : Drizzle) (web3 : Web3) (syncAlways : bool)
    (evs : list SubscriptionEvent) :
  Forall (fun ev => keeps_open ev = true) evs →
  EventChannel.emitted (blockChannel_run drizzle web3 syncAlways evs) =
    omap (header_action drizzle web3 syncAlways) evs
  ∧ EventChannel.closed (blockChannel_run drizzle web3 syncAlways evs) = false
  ∧ EventChannel.resource (blockChannel_run drizzle web3 syncAlways evs) = 0%nat.
Proof.
  intros Hevs.
  apply (blockChannel_run_open drizzle web3 syncAlways createBlockChannel evs);
    [reflexivity | exact Hevs].
Qed.

Lemma createBlockChannel_forwards_headers_witness :
  EventChannel.emitted
    (blockChannel_run Fixtures.drizzle (Fixtures.web3 (Ok [])) true
       [Callback None; Data {| header_number := 7 |}; Callback None;
        Data {| header_number := 8 |}]) =
    [BLOCK_RECEIVED {| header_number := 7 |} Fixtures.drizzle (Fixtures.web3 (Ok [])) true;
     BLOCK_RECEIVED {| header_number := 8 |} Fixtures.drizzle (Fixtures.web3 (Ok [])) true].
Proof.
  apply (createBlockChannel_forwards_headers Fixtures.drizzle (Fixtures.web3 (Ok [])) true
           [Callback None; Data {| header_number := 7 |}; Callback None;
            Data {| header_number := 8 |}]).
  repeat constructor.
Defined.

(** X14: once the consumer closes the header channel nothing more is
    emitted, whatever the subscription still delivers; and over any run
    [blockEvents.off()] is called at most once and never while the channel
    is open. *)
Theorem createBlockChannel_consumer_close
    (drizzle : Drizzle) (web3 : Web3) (syncAlways : bool)
    (evs1 evs2 : list SubscriptionEvent) :
  let before := blockChannel_run drizzle web3 syncAlways evs1 in
  let after := blockChannel_run drizzle web3 syncAlways (evs1 ++ ConsumerClose :: evs2) in
  EventChannel.emitted after = EventChannel.emitted before
  ∧ EventChannel.closed after = true
  ∧ (EventChannel.resource after ≤ 1)%nat
  ∧ (EventChannel.resource before ≤ 1)%nat
  ∧ (EventChannel.closed before = false → EventChannel.resource before = 0%nat).
Proof.
  intros before after.
  assert (∀ evs,
            let c := blockChannel_run drizzle web3 syncAlways evs in
            if EventChannel.closed c then EventChannel.resource c = 1%nat
            else EventChannel.resource c = 0%nat) as Hres.
  { intros evs. unfold blockChannel_run.
    assert (∀ c, (if EventChannel.closed c then EventChannel.resource c = 1%nat
                  else EventChannel.resource c = 0%nat) →
                 if EventChannel.closed
                      (fold_left (blockChannel_step drizzle web3 syncAlways) evs c)
                 then EventChannel.resource
                        (fold_left (blockChannel_step drizzle web3 syncAlways) evs c) = 1%nat
                 else EventChannel.resource
                        (fold_left (blockChannel_step drizzle web3 syncAlways) evs c) = 0%nat)
      as Hgen.
    { induction evs as [|ev evs IH]; intros c Hc; [exact Hc|].
      cbn [fold_left]. apply IH, blockChannel_resource, Hc. }
    apply Hgen. reflexivity. }
  assert (EventChannel.closed after = true
          ∧ EventChannel.emitted after = EventChannel.emitted before) as [Hcl Hem].
  { unfold after, before, blockChannel_run. rewrite fold_left_app. cbn [fold_left].
    set (c := fold_left (blockChannel_step drizzle web3 syncAlways) evs1
                createBlockChannel).
    assert (EventChannel.closed (blockChannel_step drizzle web3 syncAlways c ConsumerClose)
            = true
            ∧ EventChannel.emitted
                (blockChannel_step drizzle web3 syncAlways c ConsumerClose)
              = EventChannel.emitted c) as [Hc1 Hc2].
    { unfold blockChannel_step, EventChannel.close.
      destruct (EventChannel.closed c) eqn:Hc; cbn; by rewrite ?Hc. }
    rewrite (blockChannel_run_closed drizzle web3 syncAlways _ evs2 Hc1). by split. }
  pose proof (Hres (evs1 ++ ConsumerClose :: evs2)) as Hafter.
  pose proof (Hres evs1) as Hbefore. cbn zeta in Hafter, Hbefore.
  fold after in Hafter. fold before in Hbefore.
  split_and!; [exact Hem | exact Hcl | | |].
  - destruct (EventChannel.closed after); lia.
  - destruct (EventChannel.closed before); lia.
  - intros Hopen. by rewrite Hopen in Hbefore.
Qed.

(** ** The poll channel, continued *)

Section PollChannelRuns.

Variable BlockTracker : Type.
Variable tracker_stop : BlockTracker → Promise unit * BlockTracker.
Variables (drizzle : Drizzle) (web3 : Web3) (syncAlways : bool).

Local Abbreviation pstep :=
  (pollChannel_step BlockTracker tracker_stop drizzle web3 syncAlways).
Local Abbreviation unsub := (pollChannel_unsubscribe BlockTracker tracker_stop).

Lemma pollChannel_unsubscribe_resource (blockTracker : BlockTracker) :
  fst (unsub blockTracker) = snd (tracker_stop blockTracker).
Proof.
  unfold pollChannel_unsubscribe. by destruct (tracker_stop blockTracker).
Qed.

Lemma pollChannel_step_closed (c : EventChannel.t BlockTracker) (ev : PollEvent) :
  EventChannel.closed c = true → pstep c ev = c.
Proof.
  intros Hc. unfold pollChannel_step, EventChannel.emit, EventChannel.close.
  destruct ev; rewrite ?Hc; cbn; rewrite ?Hc; reflexivity.
Qed.

Lemma pollChannel_run_closed (c : EventChannel.t BlockTracker) (evs : list PollEvent) :
  EventChannel.closed c = true → fold_left pstep evs c = c.
Proof.
  intros Hc. induction evs as [|ev evs IH]; [reflexivity|].
  cbn. rewrite (pollChannel_step_closed c ev Hc). exact IH.
Qed.

Lemma pollChannel_close_open (c : EventChannel.t BlockTracker) :
  EventChannel.closed c = false →
  fst (EventChannel.close unsub c) =
    {| EventChannel.closed := true;
       EventChannel.emitted := EventChannel.emitted c;
       EventChannel.resource := snd (tracker_stop (EventChannel.resource c)) |}.
Proof.
  intros Hc. unfold EventChannel.close. rewrite Hc.
  rewrite <- pollChannel_unsubscribe_resource.
  by destruct (unsub (EventChannel.resource c)).
Qed.

Lemma pollChannel_run_blocks (c : EventChannel.t BlockTracker) (evs : list PollEvent) :
  EventChannel.closed c = false →
  Forall (fun ev => is_Some (is_TrackerBlock ev)) evs →
  EventChannel.emitted (fold_left pstep evs c) =
    EventChannel.emitted c
      ++ map (fun block => BLOCK_FOUND block drizzle web3 syncAlways)
           (omap is_TrackerBlock evs)
  ∧ EventChannel.closed (fold_left pstep evs c) = false
  ∧ EventChannel.resource (fold_left pstep evs c) = EventChannel.resource c.
Proof.
  revert c. induction evs as [|ev evs IH]; intros c Hc Hevs.
  - cbn. by rewrite app_nil_r.
  - apply Forall_cons in Hevs as [Hev Hevs]. cbn [fold_left].
    destruct ev as [block|error|]; [|by destruct Hev..].
    destruct (IH (pstep c (TrackerBlock block))) as (Hem & Hcl & Hres).
    + unfold pollChannel_step, EventChannel.emit. by rewrite Hc.
    + exact Hevs.
    + rewrite Hem, Hcl, Hres.
      unfold pollChannel_step, EventChannel.emit. rewrite Hc. cbn.
      by rewrite <- app_assoc.
Qed.

Lemma pollChannel_resource_inv (c : EventChannel.t BlockTracker) (ev : PollEvent)
    (blockTracker : BlockTracker) :
  (if EventChannel.closed c
   then EventChannel.resource c = snd (tracker_stop blockTracker)
   else EventChannel.resource c = blockTracker) →
  (if EventChannel.closed (pstep c ev)
   then EventChannel.resource (pstep c ev) = snd (tracker_stop blockTracker)
   else EventChannel.resource (pstep c ev) = blockTracker).
Proof.
  intros Hinv. destruct (EventChannel.closed c) eqn:Hc.
  - by rewrite (pollChannel_step_closed c ev Hc), Hc.
  - destruct ev as [block|error|].
    + unfold pollChannel_step, EventChannel.emit. rewrite Hc. cbn. exact Hinv.
    + unfold pollChannel_step. cbn [EventChannel.emit]. rewrite Hc.
      rewrite pollChannel_close_open by reflexivity. cbn. by rewrite Hinv.
    + unfold pollChannel_step. rewrite pollChannel_close_open by exact Hc.
      cbn. by rewrite Hinv.
Qed.

End PollChannelRuns.

(** X15: the poll channel emits one [BLOCK_FOUND] per block the tracker
    finds, in order, carrying the block and the [drizzle], [web3] and
    [syncAlways] of the channel, and leaves the tracker running; a rejected
    [start()] then adds one [BLOCKS_FAILED] with the error and closes the
    channel, after which nothing more is emitted. *)
Theorem createBlockPollChannel_forwards_blocks
    (BlockTracker : Type) (tracker_stop : BlockTracker → Promise unit * BlockTracker)
    (drizzle : Drizzle) (web3 : Web3) (syncAlways : bool) (blockTracker : BlockTracker)
    (evs : list PollEvent) :
  Forall (fun ev => is_Some (is_TrackerBlock ev)) evs →
  let run := pollChannel_run BlockTracker tracker_stop drizzle web3 syncAlways blockTracker in
  let found := map (fun block => BLOCK_FOUND block drizzle web3 syncAlways)
                 (omap is_TrackerBlock evs) in
  (EventChannel.emitted (run evs) = found
   ∧ EventChannel.closed (run evs) = false
   ∧ EventChannel.resource (run evs) = blockTracker)
  ∧ (∀ error later,
       EventChannel.emitted (run (evs ++ StartRejected error :: later)) =
         found ++ [BLOCKS_FAILED error]
       ∧ EventChannel.closed (run (evs ++ StartRejected error :: later)) = true).
Proof.
  intros Hevs run found.
  destruct (pollChannel_run_blocks BlockTracker tracker_stop drizzle web3 syncAlways
              (createBlockPollChannel BlockTracker blockTracker) evs eq_refl Hevs)
    as (Hem & Hcl & Hres).
  split; [by split_and!|].
  intros error later. unfold run, pollChannel_run.
  rewrite fold_left_app. cbn [fold_left].
  set (c := fold_left _ evs _) in *.
  assert (pollChannel_step BlockTracker tracker_stop drizzle web3 syncAlways c
            (StartRejected error) =
          {| EventChannel.closed := true;
             EventChannel.emitted := EventChannel.emitted c ++ [BLOCKS_FAILED error];
             EventChannel.resource := snd (tracker_stop (EventChannel.resource c)) |})
    as Hstep.
  { unfold pollChannel_step. cbn [EventChannel.emit]. rewrite Hcl.
    by rewrite pollChannel_close_open. }
  rewrite pollChannel_run_closed by (by rewrite Hstep).
  rewrite Hstep. cbn. by rewrite Hem.
Qed.

Lemma createBlockPollChannel_forwards_blocks_witness :
  EventChannel.emitted
    (pollChannel_run _ Fixtures.strict_stop Fixtures.drizzle (Fixtures.web3 (Ok [])) false
       Fixtures.Running
       ([TrackerBlock Fixtures.emptyBlock; TrackerBlock Fixtures.txBlock]
          ++ StartRejected (Rejected "provider down")
          :: [TrackerBlock Fixtures.emptyBlock])) =
    [BLOCK_FOUND Fixtures.emptyBlock Fixtures.drizzle (Fixtures.web3 (Ok [])) false;
     BLOCK_FOUND Fixtures.txBlock Fixtures.drizzle (Fixtures.web3 (Ok [])) false;
     BLOCKS_FAILED (Rejected "provider down")].
Proof.
  destruct (createBlockPollChannel_forwards_blocks _ Fixtures.strict_stop
              Fixtures.drizzle (Fixtures.web3 (Ok [])) false Fixtures.Running
              [TrackerBlock Fixtures.emptyBlock; TrackerBlock Fixtures.txBlock])
    as [_ H].
  - repeat constructor; by eexists.
  - destruct (H (Rejected "provider down") [TrackerBlock Fixtures.emptyBlock]) as [-> _].
    reflexivity.
Defined.

(** X16: over any run of the poll channel the tracker's [stop()] is called
    at most once, and not before the channel closes: the tracker is the one
    the channel was created with while the channel is open, and that
    tracker stopped once when it is closed. *)
Theorem createBlockPollChannel_stops_once
    (BlockTracker : Type) (tracker_stop : BlockTracker → Promise unit * BlockTracker)
    (drizzle : Drizzle) (web3 : Web3) (syncAlways : bool) (blockTracker : BlockTracker)
    (evs : list PollEvent) :
  let c := pollChannel_run BlockTracker tracker_stop drizzle web3 syncAlways
             blockTracker evs in
  if EventChannel.closed c
  then EventChannel.resource c = snd (tracker_stop blockTracker)
  else EventChannel.resource c = blockTracker.
Proof.
  cbn zeta. unfold pollChannel_run.
  assert (∀ c : EventChannel.t BlockTracker,
            (if EventChannel.closed c
             then EventChannel.resource c = snd (tracker_stop blockTracker)
             else EventChannel.resource c = blockTracker) →
            let c' := fold_left
                        (pollChannel_step BlockTracker tracker_stop drizzle web3 syncAlways)
                        evs c in
            if EventChannel.closed c'
            then EventChannel.resource c' = snd (tracker_stop blockTracker)
            else EventChannel.resource c' = blockTracker) as Hgen.
  { induction evs as [|ev evs IH]; intros c Hc; [exact Hc|].
    cbn [fold_left]. apply IH, pollChannel_resource_inv, Hc. }
  apply Hgen. reflexivity.
Qed.

(** ** Contract data for display *)

Lemma getContractData_lookup (acc : gmap string JsValue) (val : JsValue) (key k : string) :
  getContractData acc val key !! k =
    if decide (key = k ∧ Lodash.keys val ≠ [] ∧ key ≠ "address"
               ∧ key ≠ "contractType" ∧ key ≠ "metadata")
    then Some (Lodash.get_value (Lodash.prop val (hd "" (Lodash.keys val))) (JsString ""))
    else acc !! k.
Proof.
  unfold getContractData.
  destruct (Lodash.keys val) as [|k0 ks] eqn:Hkeys.
  { cbn. destruct (decide _) as [(_ & Hne & _)|_]; [done | reflexivity]. }
  cbn [List.length Nat.ltb Nat.leb andb].
  destruct (String.eqb_spec key "address") as [->|Ha]; cbn [negb andb].
  { destruct (decide _) as [(_ & _ & Hne & _)|_]; [done | reflexivity]. }
  destruct (String.eqb_spec key "contractType") as [->|Hc]; cbn [negb andb].
  { destruct (decide _) as [(_ & _ & _ & Hne & _)|_]; [done | reflexivity]. }
  destruct (String.eqb_spec key "metadata") as [->|Hm]; cbn [negb andb].
  { destruct (decide _) as [(_ & _ & _ & _ & Hne)|_]; [done | reflexivity]. }
  rewrite lookup_insert.
  destruct (decide (key = k)) as [->|Hne].
  - destruct (decide _) as [_|Hn]; [reflexivity|]. exfalso. apply Hn. by split_and!.
  - destruct (decide _) as [[He _]|_]; [done | reflexivity].
Qed.

Lemma transform_fold_other (contractData : list (string * JsValue))
    (acc : gmap string JsValue) (k : string) :
  k ∉ contractData.*1 →
  fold_left (fun acc entry => getContractData acc (snd entry) (fst entry)) contractData acc
    !! k = acc !! k.
Proof.
  revert acc. induction contractData as [|[key val] data IH]; intros acc Hk; [reflexivity|].
  cbn [fold_left fst snd]. rewrite IH by set_solver.
  rewrite getContractData_lookup.
  destruct (decide _) as [[-> _]|_]; [|reflexivity].
  exfalso. apply Hk. cbn. by left.
Qed.

(** X17: the transformed contract data has a property exactly for the
    input properties whose value has at least one key of its own and whose
    name is not [address], [contractType] or [metadata]; in particular
    these three names, and properties holding booleans, numbers, [null],
    empty strings, empty arrays or empty objects, never appear. *)
Theorem transformContractData_keys (contractData : list (string * JsValue)) (k : string) :
  is_Some (transformContractData contractData !! k) ↔
  ∃ val, (k, val) ∈ contractData ∧ Lodash.keys val ≠ []
         ∧ k ≠ "address" ∧ k ≠ "contractType" ∧ k ≠ "metadata".
Proof.
  unfold transformContractData.
  assert (∀ acc : gmap string JsValue,
            is_Some (fold_left
                       (fun acc entry => getContractData acc (snd entry) (fst entry))
                       contractData acc !! k) ↔
            is_Some (acc !! k)
            ∨ ∃ val, (k, val) ∈ contractData ∧ Lodash.keys val ≠ []
                     ∧ k ≠ "address" ∧ k ≠ "contractType" ∧ k ≠ "metadata") as Hgen.
  { induction contractData as [|[key val] data IH]; intros acc.
    - cbn. split; [by left|]. intros [H|(val & Hin & _)]; [exact H | inversion Hin].
    - cbn [fold_left fst snd]. rewrite IH, getContractData_lookup. split.
      + intros [H|(v & Hin & H)].
        * destruct (decide _) as [(-> & H')|_]; [|by left].
          right. exists val. split; [by left | exact H'].
        * right. exists v. split; [by right | exact H].
      + intros [H|(v & Hin & H)].
        * left. destruct (decide _); [by eexists | exact H].
        * apply elem_of_cons in Hin as [[= <- <-]|Hin].
          -- left. destruct (decide _) as [_|Hn]; [by eexists|].
             exfalso. apply Hn. by split.
          -- right. by exists v. }
  rewrite Hgen, lookup_empty. split; [intros [H|H]; [by destruct H | exact H] | by right].
Qed.

(** X18: no property of the transformed contract data is [undefined]: a
    missing or undefined [value] is replaced by the empty string. *)
Theorem transformContractData_defined (contractData : list (string * JsValue))
    (k : string) (v : JsValue) :
  transformContractData contractData !! k = Some v → v ≠ JsUndefined.
Proof.
  unfold transformContractData.
  assert (∀ acc : gmap string JsValue,
            (∀ v, acc !! k = Some v → v ≠ JsUndefined) →
            ∀ v, fold_left
                   (fun acc entry => getContractData acc (snd entry) (fst entry))
                   contractData acc !! k = Some v → v ≠ JsUndefined) as Hgen.
  { induction contractData as [|[key val] data IH]; intros acc Hacc v'; [apply Hacc|].
    cbn [fold_left fst snd]. apply IH. intros v''.
    rewrite getContractData_lookup. destruct (decide _) as [_|_]; [|apply Hacc].
    intros [= <-]. unfold Lodash.get_value.
    destruct (Lodash.prop val (hd "" (Lodash.keys val))) as [| | | | | |props];
      try discriminate.
    destruct (Lodash.assoc "value" props) as [[]|]; discriminate. }
  apply Hgen. intros v'. by rewrite lookup_empty.
Qed.

Lemma transformContractData_defined_witness :
  transformContractData MoreFixtures.contractData !! "symbol" = Some (JsString "")
  ∧ JsString "" ≠ JsUndefined.
Proof.
  assert (transformContractData MoreFixtures.contractData !! "symbol"
          = Some (JsString "")) as Hsymbol by (vm_compute; reflexivity).
  split; [exact Hsymbol|].
  exact (transformContractData_defined MoreFixtures.contractData "symbol" _ Hsymbol).
Defined.

(** X19: when the property names of the contract data are distinct, a
    method whose first cached call holds a defined [value] is transformed
    to that value, whatever calls are cached after it; and a property
    holding a non-empty string is transformed to the empty string. *)
Theorem transformContractData_value (contractData : list (string * JsValue))
    (k : string) :
  NoDup contractData.*1 →
  k ≠ "address" → k ≠ "contractType" → k ≠ "metadata" →
  (∀ argsHash call later v,
     (k, JsObject ((argsHash, JsObject call) :: later)) ∈ contractData →
     Lodash.assoc "value" call = Some v → v ≠ JsUndefined →
     transformContractData contractData !! k = Some v)
  ∧ (∀ s, (k, JsString s) ∈ contractData → s ≠ "" →
          transformContractData contractData !! k = Some (JsString "")).
Proof.
  intros Hnd Ha Hc Hm.
  assert (∀ val, (k, val) ∈ contractData → Lodash.keys val ≠ [] →
                 transformContractData contractData !! k =
                   Some (Lodash.get_value (Lodash.prop val (hd "" (Lodash.keys val)))
                           (JsString ""))) as Hlast.
  { intros val Hin Hkeys. unfold transformContractData.
    generalize (∅ : gmap string JsValue).
    induction contractData as [|[key val'] data IH]; intros acc; [inversion Hin|].
    cbn [fold_left fst snd]. cbn in Hnd. apply NoDup_cons in Hnd as [Hfresh Hnd].
    apply elem_of_cons in Hin as [[= <- <-]|Hin].
    - rewrite transform_fold_other by exact Hfresh.
      rewrite getContractData_lookup.
      destruct (decide _) as [_|Hn]; [reflexivity|]. exfalso. apply Hn. by split_and!.
    - by apply IH. }
  split.
  - intros argsHash call later v Hin Hvalue Hdef.
    rewrite (Hlast _ Hin) by discriminate.
    cbn. rewrite String.eqb_refl. cbn. rewrite Hvalue.
    by destruct v.
  - intros s Hin Hs. rewrite (Hlast _ Hin).
    + destruct s as [|c s]; [done|]. reflexivity.
    + destruct s as [|c s]; [done|]. discriminate.
Qed.

Lemma transformContractData_value_witness :
  transformContractData MoreFixtures.contractData !! "balance" = Some (JsString "42")
  ∧ transformContractData MoreFixtures.contractData !! "name" = Some (JsString "").
Proof.
  split.
  - destruct (transformContractData_value MoreFixtures.contractData "balance") as [H _].
    + vm_compute. repeat constructor; set_solver.
    + discriminate.
    + discriminate.
    + discriminate.
    + apply (H "0x0" [("args", JsArray []); ("value", JsString "42")] [] (JsString "42")).
      * vm_compute. set_solver.
      * reflexivity.
      * discriminate.
  - destruct (transformContractData_value MoreFixtures.contractData "name") as [_ H].
    + vm_compute. repeat constructor; set_solver.
    + discriminate.
    + discriminate.
    + discriminate.
    + apply (H "yVault"); [vm_compute; set_solver | discriminate].
Defined.

(** ** The root saga *)






(** X12: unlike an error of block processing, a rejected balance query is
    not caught: [updateAccountEth] ends with the error after
    [ACCOUNT_BALANCES_FETCHING] was put.  A run of the forked workers that
    holds such a worker, forked for an [APP_READY] or a [BLOCK_RECEIVED]
    action, is never settled, under any schedule; when nothing can move
    any more the root saga is aborted. *)
Theorem rejected_balance_stops_root_saga
    (BlockTracker : Type) (tracker_stop : BlockTracker → Promise unit * BlockTracker)
    (store : Store) (web3 : Web3) (account : string) (e : Error)
    (inputs : list (Input BlockTracker)) (i : Input BlockTracker)
    (schedule : list Choice) (p : Pool BlockTracker) :
  Js.truthy (selectAccount store) = Some account →
  eth_getBalance web3 account = Throw e →
  i ∈ inputs →
  input_action i = APP_READY (Some web3)
  ∨ (∃ blockHeader drizzle syncAlways,
       input_action i = BLOCK_RECEIVED blockHeader drizzle web3 syncAlways) →
  input_store i W_updateAccountEth = store →
  run_schedule BlockTracker tracker_stop schedule (root inputs) = Some p →
  updateAccountEth store (Some web3) =
    ([Put ACCOUNT_BALANCES_FETCHING; Select_account; Await_getBalance account], Throw e)
  ∧ settled p = false
  ∧ ((∀ c, pool_step BlockTracker tracker_stop c p = None) →
     ∃ e', aborted p = Some e').
Proof.
  intros Hacc Hbal Hi Ha Hstore Hrun.
  pose proof (updateAccountEth_query_rejected store web3 account e Hacc Hbal) as Hthrow.
  assert (settled p = false) as Hns.
  { destruct (settled p) eqn:Hsettled; [|reflexivity]. exfalso.
    assert (task_of (updateAccountEth store (Some web3))
            ∈ fork BlockTracker tracker_stop i) as Hforked.
    { unfold fork.
      destruct Ha as [Ha|(blockHeader & drizzle & syncAlways & Ha)];
        rewrite Ha; cbn; rewrite Hstore; set_solver. }
    destruct (forked_tasks_lookup BlockTracker tracker_stop inputs i _ Hi Hforked)
      as [n Hn].
    destruct (pool_settled BlockTracker tracker_stop inputs schedule p Hrun
                Hsettled n _ Hn) as [_ Hok].
    unfold task_of in Hok. cbn [outcome] in Hok. rewrite Hthrow in Hok. discriminate. }
  split_and!; [exact Hthrow | exact Hns |].
  intros Hstuck. destruct (aborted p) as [e'|] eqn:Hab; [by exists e'|].
  destruct (pool_progress BlockTracker tracker_stop p Hab Hns) as (c & p' & Hstep).
  rewrite Hstuck in Hstep. discriminate.
Qed.

Lemma rejected_balance_stops_root_saga_witness :
  settled MoreFixtures.afterAbort = false
  ∧ aborted MoreFixtures.afterAbort = Some (Rejected "provider down")
  ∧ Saga.emitted (map snd (log MoreFixtures.afterAbort)) =
      [ACCOUNT_BALANCES_FETCHING; BLOCK_PROCESSING Fixtures.emptyBlock].
Proof.
  destruct (rejected_balance_stops_root_saga _ Fixtures.strict_stop
              (Fixtures.store (Some Fixtures.lowerAddress) []) MoreFixtures.deafWeb3
              Fixtures.lowerAddress (Rejected "provider down")
              MoreFixtures.balanceThenBlock
              (MoreFixtures.appReady MoreFixtures.deafWeb3)
              MoreFixtures.abortingSchedule MoreFixtures.afterAbort)
    as (_ & Hns & Hstuck).
  - reflexivity.
  - reflexivity.
  - by left.
  - by left.
  - reflexivity.
  - vm_compute. reflexivity.
  - split_and!; [exact Hns | | vm_compute; reflexivity].
    destruct Hstuck as [e' He'].
    + intros c. vm_compute. reflexivity.
    + rewrite He'. f_equal.
      assert (aborted MoreFixtures.afterAbort = Some (Rejected "provider down")) as Hab
        by (vm_compute; reflexivity).
      congruence.
Defined.
